(** * Card-Game-Proxy-Utility: the deck image copier

    A shallow embedding of [copy_deck_images_general.py] and the
    properties of its resolution-and-placement engine.

    Conventions of the embedding.
    - Text is [string]; the helpers work on the character list of a string.
      Characters are read as code points below 128 (ASCII decklists and
      file names): whitespace is what Python's [\s] and [str.strip] accept
      there, and [lower] maps [A-Z] to [a-z].
    - A path is the list of its components, root first; [str] joins them
      with a slash (POSIX).
    - The output tree is a set of directories and a finite map of files.
      The image library is read-only and disjoint from the output tree; what
      the recursive glob finds for a pattern is an argument of the indexer.
    - Python dicts whose iteration order the code observes (the index) are
      association lists in insertion order; the others are [gmap]s.
    - Console output and the optional progress bar are passive and are not
      modelled. *)

From Stdlib Require Import String Ascii List Arith Lia Bool.
From Stdlib Require Import DecimalString DecimalNat Sorted Permutation.
From stdpp Require Import base option list gmap sets strings.

Open Scope string_scope.
Open Scope list_scope.
Open Scope nat_scope.

(** ** Characters *)

Definition code (c : ascii) : nat := nat_of_ascii c.

(** [\s] on code points below 128: TAB, LF, VT, FF, CR, FS, GS, RS, US, SP. *)
Definition is_space (c : ascii) : bool :=
  let n := code c in
  ((9 <=? n) && (n <=? 13)) || ((28 <=? n) && (n <=? 32)).

Definition is_digit (c : ascii) : bool :=
  let n := code c in (48 <=? n) && (n <=? 57).

Definition is_upper (c : ascii) : bool :=
  let n := code c in (65 <=? n) && (n <=? 90).

Definition is_lower (c : ascii) : bool :=
  let n := code c in (97 <=? n) && (n <=? 122).

(** The class [[a-z0-9]] of [normalize_key] and [tokenize]. *)
Definition is_key_char (c : ascii) : bool := is_lower c || is_digit c.

(** The class [\w] that [\b] is defined from. *)
Definition is_word (c : ascii) : bool :=
  is_lower c || is_upper c || is_digit c || (code c =? 95).

Definition lower_char (c : ascii) : ascii :=
  if is_upper c then ascii_of_nat (code c + 32) else c.

Definition ceqb (a b : ascii) : bool := Ascii.eqb a b.

(** ** Character lists *)

Definition chars : Type := list ascii.

Definition lower (l : chars) : chars := List.map lower_char l.

Fixpoint lstrip (l : chars) : chars :=
  match l with
  | c :: r => if is_space c then lstrip r else l
  | [] => []
  end.

Definition rstrip (l : chars) : chars := List.rev (lstrip (List.rev l)).

Definition strip (l : chars) : chars := rstrip (lstrip l).

Fixpoint drop_dots (l : chars) : chars :=
  match l with
  | c :: r => if ceqb c "." then drop_dots r else l
  | [] => []
  end.

(** Removal of the trailing periods. *)
Definition rstrip_dots (l : chars) : chars := List.rev (drop_dots (List.rev l)).

Fixpoint starts_with (p l : chars) : bool :=
  match p, l with
  | [], _ => true
  | a :: p', b :: l' => ceqb a b && starts_with p' l'
  | _ :: _, [] => false
  end.

Definition ends_with (p l : chars) : bool :=
  starts_with (List.rev p) (List.rev l).

(** The substring test [needle in hay]. *)
Fixpoint contains (needle hay : chars) : bool :=
  starts_with needle hay ||
  match hay with
  | [] => false
  | _ :: r => contains needle r
  end.

(** The substitution of one blank for every whitespace run: [in_ws] records
    that the run being read has already produced its blank. *)
Fixpoint collapse_ws (in_ws : bool) (l : chars) : chars :=
  match l with
  | [] => []
  | c :: r =>
      if is_space c
      then (if in_ws then collapse_ws true r else " "%char :: collapse_ws true r)
      else c :: collapse_ws false r
  end.

(** The nine characters removed by the loop of [sanitize_filename]; the last
    one is the double quote, code 34. *)
Definition illegal : chars := list_ascii_of_string "<>:/\|?*" ++ [ascii_of_nat 34].

Definition is_illegal (c : ascii) : bool := List.existsb (ceqb c) illegal.

Definition sanitize_chars (l : chars) : chars :=
  let l1 := List.map (fun c => if ceqb c ":" then "_"%char else c) l in
  let l2 := List.filter (fun c => negb (is_illegal c)) l1 in
  rstrip_dots (strip (collapse_ws false l2)).

Definition normalize_chars (l : chars) : chars :=
  List.filter is_key_char (lower l).

(** All maximal runs of key characters, left to right (the [findall] of
    [tokenize]): [cur] is the run being read, reversed. *)
Fixpoint runs (cur : chars) (l : chars) : list chars :=
  match l with
  | [] => match cur with [] => [] | _ => [List.rev cur] end
  | c :: r =>
      if is_key_char c then runs (c :: cur) r
      else match cur with
           | [] => runs [] r
           | _ => List.rev cur :: runs [] r
           end
  end.

Definition tokenize_chars (l : chars) : list chars := runs [] (lower l).

(** A trailing parenthesised word [w], compared without case and followed
    only by whitespace up to the end.  Returns what precedes the opening
    parenthesis. *)
Definition before_paren (w : chars) (l : chars) : option chars :=
  let r := lstrip (List.rev l) in
  let pat := ")"%char :: List.rev w ++ ["("%char] in
  if starts_with pat (lower r)
  then Some (List.rev (List.skipn (List.length pat) r))
  else None.

Fixpoint first_paren (ws : list chars) (l : chars) : option (chars * chars) :=
  match ws with
  | [] => None
  | w :: ws' =>
      match before_paren w l with
      | Some p => Some (w, p)
      | None => first_paren ws' l
      end
  end.

Definition pitch_words : list chars :=
  List.map list_ascii_of_string ["red"; "yellow"; "blue"; "yel"; "blu"].

Definition canonical_pitch (w : chars) : chars :=
  if decide (w = list_ascii_of_string "yel")
  then list_ascii_of_string "yellow"
  else if decide (w = list_ascii_of_string "blu")
  then list_ascii_of_string "blue"
  else w.

Definition extract_pitch_chars (l : chars) : option chars :=
  match first_paren pitch_words l with
  | Some (w, _) => Some (canonical_pitch w)
  | None => None
  end.

(** Removal of a trailing parenthesised word followed by [strip]: the match,
    when there is one, runs from the whitespace before the parenthesis to
    the end of the text. *)
Definition strip_paren_suffix (ws : list chars) (l : chars) : chars :=
  match first_paren ws l with
  | Some (_, p) => strip p
  | None => strip l
  end.

(** The search for [w] between two word boundaries, for a word [w] made of
    word characters; [prev] tells whether the character before [l] is a
    word character. *)
Fixpoint word_search (w : chars) (prev : bool) (l : chars) : bool :=
  (negb prev && starts_with w l &&
   match List.skipn (List.length w) l with
   | [] => true
   | d :: _ => negb (is_word d)
   end) ||
  match l with
  | [] => false
  | c :: r => word_search w (is_word c) r
  end.

(** The text up to the first closing parenthesis. *)
Fixpoint to_close (l : chars) : option chars :=
  match l with
  | [] => None
  | c :: r =>
      if ceqb c ")" then Some []
      else match to_close r with
           | Some g => Some (c :: g)
           | None => None
           end
  end.

(** The parenthesised groups of two or more characters, none of them a
    closing parenthesis, left to right.  Matches do not overlap: after a
    match the scan skips its text ([skip] characters are still to pass). *)
Fixpoint paren_groups (skip : nat) (l : chars) : list chars :=
  match l with
  | [] => []
  | c :: r =>
      match skip with
      | S k => paren_groups k r
      | O =>
          if ceqb c "("
          then match to_close r with
               | Some g =>
                   if 2 <=? List.length g
                   then g :: paren_groups (S (List.length g)) r
                   else paren_groups 0 r
               | None => paren_groups 0 r
               end
          else paren_groups 0 r
      end
  end.

(** ** Strings *)

Definition chars_of (s : string) : chars := list_ascii_of_string s.
Definition text (l : chars) : string := string_of_list_ascii l.

Definition sanitize_filename (name : string) : string :=
  text (sanitize_chars (chars_of name)).

Definition normalize_key (s : string) : string :=
  text (normalize_chars (chars_of s)).

Definition tokenize (s : string) : list string :=
  List.map text (tokenize_chars (chars_of s)).

Definition extract_pitch (name : string) : option string :=
  option_map text (extract_pitch_chars (chars_of name)).

Definition strip_pitch_suffix (name : string) : string :=
  text (strip_paren_suffix pitch_words (chars_of name)).

Definition strip_back_suffix (name : string) : string :=
  text (strip_paren_suffix [chars_of "back"] (chars_of name)).

Definition str_lower (s : string) : string := text (lower (chars_of s)).
Definition str_strip (s : string) : string := text (strip (chars_of s)).
Definition str_rstrip (s : string) : string := text (rstrip (chars_of s)).
Definition startswith (s p : string) : bool := starts_with (chars_of p) (chars_of s).
Definition endswith (s p : string) : bool := ends_with (chars_of p) (chars_of s).

(** [str(n)] and [int(s)] for a run of decimal digits. *)
Definition str_of_nat (n : nat) : string :=
  NilEmpty.string_of_uint (Nat.to_uint n).

Definition int_of_digits (l : chars) : nat :=
  List.fold_left (fun acc c => 10 * acc + (code c - 48)) l 0.

(** ** Paths *)

Definition Path : Type := list string.

(** [p / s] for a single component [s]; joining the empty name gives [p]. *)
Definition join (p : Path) (s : string) : Path :=
  if decide (s = "") then p else p ++ [s].

Definition path_name (p : Path) : string := List.last p "".

Definition path_parent (p : Path) : Path := List.removelast p.

(** The last period of a name splits it into stem and suffix when it is
    neither the first nor the last character: [split_ext] returns the two
    parts, the suffix with its period. *)
Fixpoint until_dot (l : chars) : option (chars * chars) :=
  match l with
  | [] => None
  | c :: r =>
      if ceqb c "." then Some ([], r)
      else match until_dot r with
           | Some (a, b) => Some (c :: a, b)
           | None => None
           end
  end.

Definition split_ext (nm : chars) : chars * chars :=
  match until_dot (List.rev nm) with
  | Some (e :: ext, s :: st) =>
      (List.rev (s :: st), "."%char :: List.rev (e :: ext))
  | _ => (nm, [])
  end.

Definition path_stem (p : Path) : string :=
  text (fst (split_ext (chars_of (path_name p)))).

Definition path_suffix (p : Path) : string :=
  text (snd (split_ext (chars_of (path_name p)))).

Fixpoint path_str (p : Path) : string :=
  match p with
  | [] => ""
  | [s] => s
  | s :: r => s +:+ "/" +:+ path_str r
  end.

(** ** The output tree *)

(** A file is known by the image it was copied from, if any, and by the
    lines appended to it. *)
Record Content : Type := mkContent {
  origin : option Path;
  appended : list string
}.

Record FS : Type := mkFS {
  dirs : gset Path;
  files : gmap Path Content
}.

Inductive Exn : Type :=
  | FileExistsError
  | IsADirectoryError
  | IndexError
  | Unbounded.

#[global] Instance Content_eq_dec : EqDecision Content.
Proof. solve_decision. Defined.

#[global] Instance FS_eq_dec : EqDecision FS.
Proof. solve_decision. Defined.

#[global] Instance Exn_eq_dec : EqDecision Exn.
Proof. solve_decision. Defined.

Definition Res (A : Type) : Type := Exn + A.

(** The value of a computation that raised nothing. *)
Definition outcome {A} (r : Res A) : option A :=
  match r with
  | inr a => Some a
  | inl _ => None
  end.

Definition ret {A} (a : A) : Res A := inr a.
Definition raise {A} (e : Exn) : Res A := inl e.
Definition bind {A B} (m : Res A) (k : A -> Res B) : Res B :=
  match m with
  | inl e => inl e
  | inr a => k a
  end.

Notation "'let!' x ':=' m 'in' k" := (bind m (fun x => k))
  (at level 10, x pattern, m at level 200, k at level 200,
   format "'[v' 'let!'  x  ':='  m  'in' '/' k ']'").

Definition is_dir (d : FS) (p : Path) : bool := bool_decide (p ∈ dirs d).
Definition is_file (d : FS) (p : Path) : bool := bool_decide (is_Some (files d !! p)).
Definition path_exists (d : FS) (p : Path) : bool := is_dir d p || is_file d p.

(** The path itself and its ancestors. *)
Definition ancestors (p : Path) : list Path :=
  List.map (fun n => List.firstn n p) (List.seq 0 (S (List.length p))).

(** [p.mkdir(parents=True, exist_ok=True)]: nothing to do for an existing
    folder; fails when the path or one of its ancestors is a regular file. *)
Definition mkdir (d : FS) (p : Path) : Res FS :=
  if is_dir d p then ret d
  else if List.existsb (is_file d) (ancestors p) then raise FileExistsError
  else ret (mkFS (dirs d ∪ list_to_set (ancestors p)) (files d)).

Definition has_prefix (a p : Path) : bool :=
  bool_decide (List.firstn (List.length a) p = a).

Definition rebase (a b p : Path) : Path :=
  if has_prefix a p then b ++ List.skipn (List.length a) p else p.

(** [a.rename(b)], called only when [b] does not exist: the tree under [a]
    moves to [b].  [None] stands for the [OSError] the callers catch. *)
Definition rename (d : FS) (a b : Path) : option FS :=
  if path_exists d a && negb (path_exists d b) && is_dir d (path_parent b)
     && negb (has_prefix a b)
  then Some (mkFS (set_map (rebase a b) (dirs d)) (kmap (rebase a b) (files d)))
  else None.

(** [shutil.copy2(src, dst)] of a readable image, called only when [dst]
    does not exist: succeeds when the folder of [dst] is there. *)
Definition copy2 (d : FS) (src dst : Path) : option FS :=
  if is_dir d (path_parent dst) && negb (path_exists d dst)
  then Some (mkFS (dirs d) (<[dst := mkContent (Some src) []]> (files d)))
  else None.

(** [log]: creates the folder of the log, then appends the line. *)
Definition log (msg : string) (error_log : Path) (d : FS) : Res FS :=
  let! d1 := mkdir d (path_parent error_log) in
  if is_dir d1 error_log then raise IsADirectoryError
  else
    let old := default (mkContent None []) (files d1 !! error_log) in
    ret (mkFS (dirs d1)
           (<[error_log := mkContent (origin old) (appended old ++ [str_rstrip msg])]>
              (files d1))).

(** ** The image library and its index *)

(** What the code sees of the image library: whether its root exists and
    what [rglob] finds for the pattern made of a star and an extension. *)
Record Library : Type := mkLibrary {
  lib_root : Path;
  lib_exists : bool;
  rglob : string -> list Path
}.

(** A library holding exactly the given files, matched by the end of their
    names. *)
Definition library_of (root : Path) (fl : list Path) : Library :=
  mkLibrary root true
    (fun ext => List.filter (fun p => endswith (path_name p) ext) fl).

(** The index is a dict read in insertion order by [best_match]. *)
Definition Index : Type := list (string * list Path).

Fixpoint index_get (ix : Index) (key : string) : option (list Path) :=
  match ix with
  | [] => None
  | (k, ps) :: r => if decide (k = key) then Some ps else index_get r key
  end.

Definition index_keys (ix : Index) : list string := List.map fst ix.

(** [index.setdefault(key, []).append(p)] *)
Fixpoint index_add (key : string) (p : Path) (ix : Index) : Index :=
  match ix with
  | [] => [(key, [p])]
  | (k, ps) :: r =>
      if decide (k = key) then (k, ps ++ [p]) :: r
      else (k, ps) :: index_add key p r
  end.

(** The dict comprehension over [enumerate(exts)]: a later duplicate
    overrides an earlier one. *)
Fixpoint ext_order_from (i : nat) (exts : list string) (m : gmap string nat)
  : gmap string nat :=
  match exts with
  | [] => m
  | e :: r => ext_order_from (S i) r (<[str_lower e := i]> m)
  end.

Definition ext_order (exts : list string) : gmap string nat :=
  ext_order_from 0 exts ∅.

Definition ext_rank (eo : gmap string nat) (p : Path) : nat :=
  default 999 (eo !! str_lower (path_suffix p)).

Definition sort_text (p : Path) : string := str_lower (path_str p).

(** The order of the sort keys, pairs of a rank and a lowered path text. *)
Definition key_leb (eo : gmap string nat) (a b : Path) : bool :=
  (ext_rank eo a <? ext_rank eo b) ||
  ((ext_rank eo a =? ext_rank eo b) && String.leb (sort_text a) (sort_text b)).

(** [list.sort] is stable: an element goes before the later ones that
    compare equal to it. *)
Fixpoint insert_sorted (leb : Path -> Path -> bool) (x : Path) (l : list Path)
  : list Path :=
  match l with
  | [] => [x]
  | y :: r => if leb x y then x :: y :: r else y :: insert_sorted leb x r
  end.

Definition sort_paths (leb : Path -> Path -> bool) (l : list Path) : list Path :=
  List.fold_right (insert_sorted leb) [] l.

(** Every file the scan finds, extension by extension. *)
Definition scan (lib : Library) (exts : list string) : list Path :=
  List.concat (List.map (rglob lib) exts).

Definition index_step (ix : Index) (p : Path) : Index :=
  let key := normalize_key (path_stem p) in
  if decide (key = "") then ix else index_add key p ix.

Definition index_library (lib : Library) (exts : list string)
    (error_log : Path) (d : FS) : Res (Index * list Path * FS) :=
  if negb (lib_exists lib) then
    let! d1 := log ("[ERROR] Images directory not found: " +:+ path_str (lib_root lib))
                 error_log d in
    ret ([], [], d1)
  else
    let catalog := scan lib exts in
    let index := List.fold_left index_step catalog [] in
    let eo := ext_order exts in
    ret (List.map (fun kv => (fst kv, sort_paths (key_leb eo) (snd kv))) index,
         catalog, d).

(** ** Matching *)

Definition related (k b : string) : bool := startswith k b || startswith b k.

Definition pitch_filter (pitch : option string) (l : list Path) : list Path :=
  match pitch with
  | Some pkw =>
      List.filter
        (fun p => word_search (chars_of pkw) false (lower (chars_of (path_stem p)))) l
  | None => l
  end.

Definition buckets_of (ix : Index) (ks : list string) : list Path :=
  List.concat (List.map (fun ck => default [] (index_get ix ck)) ks).

Definition best_match (card_name : string) (index : Index)
  : Res (option Path * list Path * bool) :=
  let pitch := extract_pitch card_name in
  let key := normalize_key card_name in
  match index_get index key with
  | Some bucket =>
      match bucket with
      | [] => raise IndexError
      | p :: _ => ret (Some p, bucket, true)
      end
  | None =>
      let base :=
        match pitch with
        | Some _ => strip_pitch_suffix card_name
        | None => card_name
        end in
      let base_key := normalize_key base in
      let candidates_keys :=
        List.filter (fun k => related k base_key) (index_keys index) in
      let candidates := pitch_filter pitch (buckets_of index candidates_keys) in
      match candidates with
      | p :: _ => ret (Some p, candidates, false)
      | [] =>
          let rb_key :=
            normalize_key (strip_back_suffix (strip_pitch_suffix card_name)) in
          let loose :=
            List.concat
              (List.map
                 (fun kv =>
                    if negb (bool_decide (rb_key = "")) && related (fst kv) rb_key
                    then snd kv else [])
                 index) in
          match loose with
          | p :: _ => ret (Some p, loose, false)
          | [] => ret (None, [], false)
          end
      end
  end.

(** ** Back pairing *)

Definition token_set (s : string) : gset string := list_to_set (tokenize s).

Definition bare_name (s : string) : string :=
  strip_back_suffix (strip_pitch_suffix s).

(** Strategy 1: the names carrying an explicit back marker. *)
Definition explicit_names (front_card : string) (src : Path) : list string :=
  let pitch := extract_pitch front_card in
  let base := bare_name front_card in
  [base +:+ " (Back)"]
  ++ match pitch with
     | Some c => [base +:+ " (" +:+ c +:+ ") (Back)"]
     | None => []
     end
  ++ [bare_name (path_stem src) +:+ " (Back)"].

Definition explicit_backs (front_card : string) (src : Path) (index : Index)
  : list Path :=
  buckets_of index (List.map normalize_key (explicit_names front_card src)).

(** Strategy 2: the loop over [(front_card, base)] stops at the first key
    whose mapped name is in the index. *)
Fixpoint override_backs (keys : list string) (index : Index)
    (backs_map : gmap string string) : list Path :=
  match keys with
  | [] => []
  | key :: r =>
      match backs_map !! key with
      | Some back =>
          match index_get index (normalize_key back) with
          | Some ps => ps
          | None => override_backs r index backs_map
          end
      | None => override_backs r index backs_map
      end
  end.

(** Strategy 3: a parenthesised group of the stem names the front card. *)
Definition group_mentions (base_tokens : gset string) (p : Path) : bool :=
  List.existsb
    (fun grp => bool_decide (base_tokens ⊆ token_set (text grp)))
    (paren_groups 0 (chars_of (path_stem p))).

Definition paren_backs (base : string) (catalog : list Path) : list Path :=
  let base_tokens := token_set base in
  if bool_decide (base_tokens = ∅) then []
  else List.filter (group_mentions base_tokens) catalog.

(** Strategy 4: the stem holds the word back and all the tokens. *)
Definition keyword_backs (base : string) (catalog : list Path) : list Path :=
  let base_tokens := token_set base in
  List.filter
    (fun p =>
       let sl := str_lower (path_stem p) in
       contains (chars_of "back") (chars_of sl)
       && bool_decide (base_tokens ⊆ token_set sl))
    catalog.

Definition orelse (a b : list Path) : list Path :=
  match a with
  | [] => b
  | _ => a
  end.

Definition dedup_key (p : Path) : string * string :=
  (path_stem p, str_lower (path_suffix p)).

Fixpoint dedup_backs (seen : gset (string * string)) (l : list Path) : list Path :=
  match l with
  | [] => []
  | p :: r =>
      if bool_decide (dedup_key p ∈ seen) then dedup_backs seen r
      else p :: dedup_backs ({[dedup_key p]} ∪ seen) r
  end.

(** The body of [find_back_images] below the cache test. *)
Definition resolve_backs (front_card : string) (src : Path) (index : Index)
    (catalog : list Path) (backs_map : gmap string string) : list Path :=
  let base := bare_name front_card in
  let results := explicit_backs front_card src index in
  let results := orelse results (override_backs [front_card; base] index backs_map) in
  let results := orelse results (paren_backs base catalog) in
  let results := orelse results (keyword_backs base catalog) in
  dedup_backs ∅ results.

(** [find_back_images] with the module-level cache passed explicitly. *)
Definition find_back_images (front_card : string) (src : Path) (index : Index)
    (catalog : list Path) (backs_map : gmap string string)
    (BACK_CACHE : gmap string (list Path))
  : list Path * gmap string (list Path) :=
  let cache_key := normalize_key front_card in
  match BACK_CACHE !! cache_key with
  | Some cached => (cached, BACK_CACHE)
  | None =>
      let deduped := resolve_backs front_card src index catalog backs_map in
      (deduped, <[cache_key := deduped]> BACK_CACHE)
  end.

(** ** Deck parsing *)

Definition is_linebreak (c : ascii) : bool :=
  let n := code c in
  ((10 <=? n) && (n <=? 13)) || ((28 <=? n) && (n <=? 30)).

(** [str.splitlines]: a carriage return followed by a line feed is one
    break; [cur] is the line being read, reversed. *)
Fixpoint splitlines_from (cur : chars) (l : chars) : list chars :=
  match l with
  | [] => match cur with [] => [] | _ => [List.rev cur] end
  | c :: r =>
      if is_linebreak c then
        List.rev cur ::
          match r with
          | c2 :: r2 =>
              if (code c =? 13) && (code c2 =? 10)
              then splitlines_from [] r2
              else splitlines_from [] r
          | [] => splitlines_from [] r
          end
      else splitlines_from (c :: cur) r
  end.

Definition splitlines (s : string) : list string :=
  List.map text (splitlines_from [] (chars_of s)).

(** A header pattern: optional blanks, the keyword without case, optional
    blanks, a colon, optional blanks and a value of at least one character
    up to the end of the line.  Returns the stripped value. *)
Definition header_value (kw : string) (ln : string) : option string :=
  let s1 := lstrip (chars_of ln) in
  if starts_with (chars_of kw) (lower s1) then
    match lstrip (List.skipn (String.length kw) s1) with
    | c :: r =>
        if ceqb c ":" then
          match r with
          | [] => None
          | _ => Some (text (strip r))
          end
        else None
    | [] => None
    end
  else None.

(** The pattern of the key [side] accepts two keywords, the first first. *)
Definition side_value (ln : string) : option string :=
  match header_value "side" ln with
  | Some v => Some v
  | None => header_value "faction" ln
  end.

Fixpoint span_digits (l : chars) : chars * chars :=
  match l with
  | c :: r =>
      if is_digit c then let '(a, b) := span_digits r in (c :: a, b)
      else ([], l)
  | [] => ([], [])
  end.

(** [PAT_COUNT_X_NAME] on the stripped line: a count, the letter x in either
    case, at least one blank and the name. *)
Definition count_x_name (ln : string) : option (nat * string) :=
  let s := strip (chars_of ln) in
  match span_digits s with
  | (d :: ds, rest) =>
      match lstrip rest with
      | x :: r =>
          if ceqb (lower_char x) "x" then
            match r with
            | c :: _ =>
                if is_space c then
                  match lstrip r with
                  | [] => None
                  | nm => Some (int_of_digits (d :: ds), text (strip nm))
                  end
                else None
            | [] => None
            end
          else None
      | [] => None
      end
  | ([], _) => None
  end.

Record Headers : Type := mkHeaders {
  h_title : string; h_identity : string; h_deck : string; h_hero : string;
  h_commander : string; h_side : string; h_game : string
}.

Definition or_keep (v : option string) (old : string) : string := default old v.

Definition header_line (h : Headers) (ln : string) : Headers :=
  mkHeaders
    (or_keep (header_value "title" ln) (h_title h))
    (or_keep (header_value "identity" ln) (h_identity h))
    (or_keep (header_value "deck" ln) (h_deck h))
    (or_keep (header_value "hero" ln) (h_hero h))
    (or_keep (header_value "commander" ln) (h_commander h))
    (or_keep (side_value ln) (h_side h))
    (or_keep (header_value "game" ln) (h_game h)).

Definition card_entry (ln : string) : option (nat * string) :=
  match count_x_name ln with
  | Some (cnt, nm) =>
      match extract_pitch nm with
      | Some pitch => Some (cnt, strip_pitch_suffix nm +:+ " (" +:+ pitch +:+ ")")
      | None => Some (cnt, nm)
      end
  | None => None
  end.

Definition first_nonempty (l : list string) (dflt : string) : string :=
  default dflt (List.find (fun c => negb (bool_decide (c = ""))) l).

(** [parse_deck_file] on the decoded text of the file at [path]. *)
Definition parse_deck_file (path : Path) (content : string) (prefer_identity : bool)
  : string * string * string * list (nat * string) :=
  let lines := List.map str_rstrip (splitlines content) in
  let h := List.fold_left header_line (List.firstn 100 lines)
             (mkHeaders "" "" "" "" "" "" "") in
  let candidates :=
    [ (if prefer_identity then h_identity h else "");
      (if prefer_identity then h_hero h else "");
      (if prefer_identity then h_commander h else "");
      h_deck h; h_title h; path_stem path ] in
  let deck_display := first_nonempty candidates (path_stem path) in
  let entries := List.concat (List.map (fun ln => option_list (card_entry ln)) lines) in
  (deck_display, h_side h, h_game h, entries).

(** ** The override file *)

(** The split of a line at its first comma and the whitespace after it, the
    one split that [load_backs_map] asks for. *)
Fixpoint split_comma (l : chars) : option (chars * chars) :=
  match l with
  | [] => None
  | c :: r =>
      if ceqb c "," then Some ([], lstrip r)
      else match split_comma r with
           | Some (a, b) => Some (c :: a, b)
           | None => None
           end
  end.

(** The body of the loop of [load_backs_map] for one raw line. *)
Definition backs_line (mapping : gmap string string) (raw : string)
  : gmap string string :=
  let line := strip (chars_of raw) in
  match line with
  | [] => mapping
  | c :: _ =>
      if ceqb c "#" then mapping
      else match split_comma line with
           | Some (a, b) =>
               match strip a, strip b with
               | f :: fs, k :: ks => <[text (f :: fs) := text (k :: ks)]> mapping
               | _, _ => mapping
               end
           | None => mapping
           end
  end.

(** [load_backs_map] on the decoded text of the side file; [None] stands for
    no path given or no file there. *)
Definition load_backs_map (content : option string) : gmap string string :=
  match content with
  | None => ∅
  | Some s => List.fold_left backs_line (splitlines s) ∅
  end.

(** ** Folder naming *)

(** A non-empty [--name-template] is given by what [str.format] makes of it
    from the game, the side, the deck and the file stem. *)
Definition Template : Type := string -> string -> string -> string -> string.

Definition compose_folder_base (deck_display side game_cli game_header
    filename_stem : string) (name_template : option Template) : string :=
  let game := str_strip (if bool_decide (game_header = "") then game_cli else game_header) in
  let deck := str_strip deck_display in
  let side := str_strip side in
  let file_stem := str_strip filename_stem in
  match name_template with
  | Some fmt => fmt game side deck file_stem
  | None =>
      if negb (bool_decide (game = "")) && negb (bool_decide (side = ""))
      then game +:+ " - " +:+ side +:+ " - " +:+ deck
      else if negb (bool_decide (game = ""))
      then game +:+ " - " +:+ deck
      else if negb (bool_decide (side = ""))
      then side +:+ " - " +:+ deck
      else deck
  end.

(** ** Destination folders *)

(** The unbounded [while True] loops look for the first number whose name is
    free.  [first_free busy fuel n] tries [fuel] numbers from [n] on; the
    callers give it more fuel than there are busy names. *)
Fixpoint first_free (busy : nat -> bool) (fuel n : nat) : option nat :=
  match fuel with
  | O => None
  | S f => if busy n then first_free busy f (S n) else Some n
  end.

Definition variant_name (base_name : string) (n : nat) : string :=
  sanitize_filename (base_name +:+ " (variant " +:+ str_of_nat n +:+ ")").

Definition claimed (folder_claims : gmap string string) (name : string) : bool :=
  bool_decide (is_Some (folder_claims !! name)).

(** [folder_claims.setdefault(name, deck_key)] *)
Definition setdefault (name deck_key : string) (folder_claims : gmap string string)
  : gmap string string :=
  match folder_claims !! name with
  | Some _ => folder_claims
  | None => <[name := deck_key]> folder_claims
  end.

Definition entries_count (d : FS) : nat := size (dirs d) + size (dom (files d)).

Definition variant_busy (base_dir : Path) (base_name : string)
    (folder_claims : gmap string string) (d : FS) (n : nat) : bool :=
  let variant := variant_name base_name n in
  path_exists d (join base_dir variant) || claimed folder_claims variant.

Definition variant_msg (base_name owner variant deck_key : string) : string :=
  "[VARIANT] '" +:+ base_name +:+ "' already claimed by '" +:+ owner +:+
  "'. Created '" +:+ variant +:+ "' for '" +:+ deck_key +:+ "'.".

Definition choose_dest_dir (base_dir : Path) (base_name deck_key : string)
    (existing_dirs_start : gset string) (folder_claims : gmap string string)
    (error_log : Path) (d : FS)
  : Res (Path * gmap string string * FS) :=
  let base_name := sanitize_filename base_name in
  let target := join base_dir base_name in
  if bool_decide (base_name ∈ existing_dirs_start) || path_exists d target then
    let! d1 := mkdir d target in
    ret (target, setdefault base_name deck_key folder_claims, d1)
  else
    let fresh :=
      let! d1 := mkdir d target in
      ret (target, <[base_name := deck_key]> folder_claims, d1) in
    match folder_claims !! base_name with
    | Some owner =>
        if bool_decide (owner = deck_key) then fresh
        else
          match first_free (variant_busy base_dir base_name folder_claims d)
                  (S (entries_count d + size (dom folder_claims))) 2 with
          | None => raise Unbounded
          | Some n =>
              let variant := variant_name base_name n in
              let vpath := join base_dir variant in
              let! d1 := mkdir d vpath in
              let claims1 := <[variant := deck_key]> folder_claims in
              let! d2 := log (variant_msg base_name
                                (default "" (claims1 !! base_name)) variant deck_key)
                           error_log d1 in
              ret (vpath, claims1, d2)
          end
    | None => fresh
    end.

(** The text of the caught exception is not modelled. *)
Definition rename_error_msg (old new : string) : string :=
  "[RENAME-ERROR] " +:+ old +:+ " -> " +:+ new +:+ " :: OSError".

Definition rename_or_log (dest_dir new_path : Path) (error_log : Path) (d : FS)
  : Res (Path * FS) :=
  match rename d dest_dir new_path with
  | Some d1 => ret (new_path, d1)
  | None =>
      let! d1 := log (rename_error_msg (path_name dest_dir) (path_name new_path))
                   error_log d in
      ret (dest_dir, d1)
  end.

Definition rename_with_suffix (dest_dir : Path) (suffix : string)
    (error_log : Path) (d : FS) : Res (Path * FS) :=
  let parent := path_parent dest_dir in
  let base := path_name dest_dir in
  if endswith base suffix then ret (dest_dir, d)
  else
    let new_name := sanitize_filename (base +:+ " " +:+ suffix) in
    let new_path := join parent new_name in
    if negb (path_exists d new_path) then
      match rename d dest_dir new_path with
      | Some d1 => ret (new_path, d1)
      | None =>
          let! d1 := log (rename_error_msg (path_name dest_dir) new_name) error_log d in
          ret (dest_dir, d1)
      end
    else
      match first_free
              (fun n => path_exists d (join parent (variant_name new_name n)))
              (S (entries_count d)) 2 with
      | None => raise Unbounded
      | Some n =>
          rename_or_log dest_dir (join parent (variant_name new_name n)) error_log d
      end.

(** ** The run *)

Record Args : Type := mkArgs {
  images : Library;
  output : Path;
  exts : list string;
  game : string;
  by_identity : bool;
  name_template : option Template;
  backs_map : gmap string string
}.

(** What a run mutates: the output tree, the folder claims of the run and
    the cache of resolved backs. *)
Record State : Type := mkState {
  disk : FS;
  folder_claims : gmap string string;
  BACK_CACHE : gmap string (list Path)
}.

#[global] Instance State_eq_dec : EqDecision State.
Proof. solve_decision. Defined.

Definition copy_name (shown : string) (i qty : nat) (sfx : string) : string :=
  sanitize_filename shown +:+ " - " +:+ str_of_nat i +:+ " of " +:+ str_of_nat qty
  +:+ str_lower sfx.

(** The text of the caught exception is not modelled. *)
Definition copy_error_msg (deck_file what out : string) : string :=
  "[COPY-ERROR] " +:+ deck_file +:+ " | " +:+ what +:+ " -> " +:+ out +:+ " :: OSError".

(** One pass of a copy loop: skip an existing target, else copy and log a
    failure.  [out_name] already holds the marker of a back. *)
Definition copy_once (deck_file what : string) (src out_path : Path)
    (error_log : Path) (d : FS) : Res FS :=
  if path_exists d out_path then
    log ("[SKIP-EXISTS] " +:+ deck_file +:+ " | " +:+ path_name out_path) error_log d
  else
    match copy2 d src out_path with
    | Some d1 => ret d1
    | None => log (copy_error_msg deck_file what (path_name out_path)) error_log d
    end.

(** [for i in range(1, qty + 1)] *)
Definition copy_loop (deck_file what shown : string) (qty : nat) (src dest_dir : Path)
    (error_log : Path) (d : FS) : Res FS :=
  List.fold_left
    (fun acc i =>
       let! d0 := acc in
       copy_once deck_file what src
         (join dest_dir (copy_name shown i qty (path_suffix src))) error_log d0)
    (List.seq 1 qty) (ret d).

Fixpoint join_names (l : list string) : string :=
  match l with
  | [] => ""
  | [s] => s
  | s :: r => s +:+ ", " +:+ join_names r
  end.

(** The body of the loop over the entries of a deck; [used] is
    [unique_back_used]. *)
Definition handle_entry (a : Args) (index : Index) (catalog : list Path)
    (deck_file : string) (dest_dir error_log : Path) (qty : nat) (card : string)
    (st : State) (used : bool) : Res (State * bool) :=
  let! (src, candidates, is_exact) := best_match card index in
  match src with
  | None =>
      let! d1 := log ("[MISSING] " +:+ deck_file +:+ " | " +:+ card +:+ " (x" +:+
                      str_of_nat qty +:+ ") not found under " +:+
                      path_str (lib_root (images a))) error_log (disk st) in
      ret (mkState d1 (folder_claims st) (BACK_CACHE st), used)
  | Some src =>
      let! d1 := copy_loop deck_file card card qty src dest_dir error_log (disk st) in
      let! d2 :=
        if negb is_exact && (1 <? List.length candidates) then
          log ("[AMBIGUOUS] " +:+ deck_file +:+ " | " +:+ card +:+
               " matched multiple files; used '" +:+ path_name src +:+
               "'. Candidates: " +:+
               join_names (List.map path_name (List.firstn 3 candidates)))
            error_log d1
        else ret d1 in
      let '(backs, cache1) :=
        find_back_images card src index catalog (backs_map a) (BACK_CACHE st) in
      match backs with
      | [] => ret (mkState d2 (folder_claims st) cache1, used)
      | back_path :: _ =>
          let base_req := bare_name card in
          let! d3 := copy_loop deck_file (base_req +:+ " (Back)")
                       (base_req +:+ " (Back)") qty back_path dest_dir error_log d2 in
          ret (mkState d3 (folder_claims st) cache1, true)
      end
  end.

Definition unique_marker : string := " - Unique front and backs".

Definition handle_deck (a : Args) (index : Index) (catalog : list Path)
    (existing_dirs_start : gset string) (error_log : Path)
    (deck_path : Path) (content : string) (st : State) : Res State :=
  let '(deck_display, side, game_header, entries) :=
    parse_deck_file deck_path content (by_identity a) in
  match entries with
  | [] =>
      let! d1 := log ("[WARN] No cards parsed from " +:+ path_name deck_path +:+
                      "; skipping.") error_log (disk st) in
      ret (mkState d1 (folder_claims st) (BACK_CACHE st))
  | _ =>
      let folder_base :=
        compose_folder_base deck_display side (game a) game_header
          (path_stem deck_path) (name_template a) in
      let deck_key := deck_display in
      let! (dest_dir, claims1, d1) :=
        choose_dest_dir (output a) folder_base deck_key existing_dirs_start
          (folder_claims st) error_log (disk st) in
      let! (st1, unique_back_used) :=
        List.fold_left
          (fun acc e =>
             let! (s, used) := acc in
             handle_entry a index catalog (path_name deck_path) dest_dir error_log
               (fst e) (snd e) s used)
          entries (ret (mkState d1 claims1 (BACK_CACHE st), false)) in
      if unique_back_used then
        let! (_, d2) := rename_with_suffix dest_dir unique_marker error_log (disk st1) in
        ret (mkState d2 (folder_claims st1) (BACK_CACHE st1))
      else ret st1
  end.

(** The names of the folders directly under [root]. *)
Definition child_dirs (d : FS) (root : Path) : gset string :=
  set_map path_name
    (filter (fun q => List.length q = S (List.length root)
                      /\ List.firstn (List.length root) q = root) (dirs d)).

(** [main] after the command line is parsed: [deck_files] are the decklists
    in the sorted order of the glob, each with its decoded text.  The claims
    and the cache start empty, as in a new process. *)
Definition main (a : Args) (deck_files : list (Path * string)) (d : FS) : Res FS :=
  let output_root := output a in
  let error_log := join output_root "ERRORS.txt" in
  let exts := List.map str_lower (exts a) in
  let! (index, catalog, d1) := index_library (images a) exts error_log d in
  match deck_files with
  | [] => ret d1
  | _ =>
      let! existing_dirs_start :=
        if path_exists d1 output_root then
          if is_dir d1 output_root then ret (child_dirs d1 output_root)
          else raise FileExistsError
        else ret ∅ in
      let! st :=
        List.fold_left
          (fun acc df =>
             let! s := acc in
             handle_deck a index catalog existing_dirs_start error_log
               (fst df) (snd df) s)
          deck_files (ret (mkState d1 ∅ ∅)) in
      ret (disk st)
  end.

(** ** Scenarios *)

Module Scenario.

Definition out : Path := ["out"].
Definition errors_txt : Path := ["out"; "ERRORS.txt"].
Definition default_exts : list string :=
  [".png"; ".jpg"; ".jpeg"; ".webp"; ".tif"; ".tiff"].

(** An output root that exists and is empty. *)
Definition empty_disk : FS := mkFS {[ []; out ]} ∅.

Definition newline : string := String (ascii_of_nat 10) "".

(** The end-to-end scenario: one decklist, a front and its back. *)
Definition ember_front : Path := ["lib"; "Ember's Call (Red).png"].
Definition ember_back : Path := ["lib"; "Ember's Call (Red) (Back).png"].
Definition ember_lib : Library := library_of ["lib"] [ember_front; ember_back].
Definition ember_args : Args :=
  mkArgs ember_lib out default_exts "" false None ∅.
Definition ember_decks : list (Path * string) :=
  [(["decks"; "deck.txt"], "2x Ember's Call (Red)")].
Definition ember_folder : Path := ["out"; "deck - Unique front and backs"].

Definition ember_variant : Path :=
  ["out"; "deck - Unique front and backs (variant 2)"].

Definition copy_of (src : Path) : Content := mkContent (Some src) [].

Definition ember_copies (folder : Path) : list (Path * Content) :=
  [ (folder ++ ["Ember's Call (red) - 1 of 2.png"], copy_of ember_front);
    (folder ++ ["Ember's Call (red) - 2 of 2.png"], copy_of ember_front);
    (folder ++ ["Ember's Call (Back) - 1 of 2.png"], copy_of ember_back);
    (folder ++ ["Ember's Call (Back) - 2 of 2.png"], copy_of ember_back) ].

(** The tree after one run, and after a second run over it. *)
Definition ember_outcome : FS :=
  mkFS {[ []; out; ember_folder ]} (list_to_map (ember_copies ember_folder)).
Definition ember_rerun : FS :=
  mkFS {[ []; out; ember_folder; ember_variant ]}
    (list_to_map (ember_copies ember_folder ++ ember_copies ember_variant)).

(** Two decklists named alike in two folders, foldered by file name. *)
Definition storm_lib : Library :=
  library_of ["lib"] [["lib"; "Bolt.png"]; ["lib"; "Gust.png"]].
Definition by_file : Template := fun _ _ _ file => file.
Definition storm_args : Args :=
  mkArgs storm_lib out default_exts "" false (Some by_file) ∅.
Definition storm_decks : list (Path * string) :=
  [ (["decks"; "a"; "Storm.txt"], "Title: Deck A" +:+ newline +:+ "1x Bolt");
    (["decks"; "b"; "Storm.txt"], "Title: Deck B" +:+ newline +:+ "1x Gust") ].

Definition storm_outcome : FS :=
  mkFS {[ []; out; ["out"; "Storm"] ]}
    (list_to_map
       [ (["out"; "Storm"; "Bolt - 1 of 1.png"], copy_of ["lib"; "Bolt.png"]);
         (["out"; "Storm"; "Gust - 1 of 1.png"], copy_of ["lib"; "Gust.png"]) ]).

(** Two files of one stem in folders that differ in case. *)
Definition case_lib : Library :=
  library_of ["lib"] [["lib"; "B"; "x.png"]; ["lib"; "a"; "x.png"]].

Definition card_lib : Library :=
  library_of ["lib"] [["lib"; "Card.jpg"]; ["lib"; "Card.png"]].

(** A file whose stem has no letter and no digit, next to a plain one. *)
Definition dash_file : Path := ["lib"; "--.png"].
Definition dash_lib : Library :=
  library_of ["lib"] [dash_file; ["lib"; "Card.png"]].

(** A front, a candidate back and an override that pairs them. *)
Definition foo_lib : Library :=
  library_of ["lib"] [["lib"; "Foo.png"]; ["lib"; "Bar.png"]].
Definition foo_map : gmap string string := <["Foo" := "Bar"]> ∅.

(** A front and the two faces of another card. *)
Definition baz_lib : Library :=
  library_of ["lib"]
    [["lib"; "Foo.png"]; ["lib"; "Baz.png"]; ["lib"; "Baz (Back).png"]].

Definition built (lib : Library) (exts : list string) : Index * list Path :=
  match index_library lib exts errors_txt empty_disk with
  | inr (index, catalog, _) => (index, catalog)
  | inl _ => ([], [])
  end.

End Scenario.

(** ** Vocabulary of the statements *)

(** Every bucket of the index holds a file: what the indexer builds, and
    what [index[key][0]] relies on. *)
Definition buckets_nonempty (ix : Index) : Prop :=
  forall k ps, In (k, ps) ix -> ps <> [].

(** The key under which the indexer files a path. *)
Definition key_of (p : Path) : string := normalize_key (path_stem p).

(** The scanned files of one key, in scan order. *)
Definition with_key (k : string) (l : list Path) : list Path :=
  List.filter (fun q => bool_decide (key_of q = k)) l.

Definition le_of (leb : Path -> Path -> bool) (a b : Path) : Prop := leb a b = true.

(** The order as the specification words it: the rank of the extension,
    then the path text as it stands.  It is compared below with [key_leb],
    the order of the code. *)
Definition spec_key_leb (eo : gmap string nat) (a b : Path) : bool :=
  (ext_rank eo a <? ext_rank eo b) ||
  ((ext_rank eo a =? ext_rank eo b) && String.leb (path_str a) (path_str b)).

(** All the files held by the index. *)
Definition indexed (ix : Index) : list Path := List.concat (List.map snd ix).

(** Every bucket is filed under a key that is not empty and holds files of
    that key only. *)
Definition keyed (ix : Index) : Prop :=
  forall k ps, In (k, ps) ix -> k <> "" /\ ps <> [] /\ forall q, In q ps -> key_of q = k.

(** The two cleaning passes of [sanitize_filename]. *)
Definition clean (l : chars) : chars :=
  List.filter (fun c => negb (is_illegal c))
    (List.map (fun c => if ceqb c ":" then "_"%char else c) l).

(** A character the cleaning passes keep as it is. *)
Definition kept (c : ascii) : bool := negb (is_illegal c) && negb (ceqb c ":").

(** The names that can make a number busy: those of the entries of the
    tree and those of the claims. *)
Definition taken_names (d : FS) (claims : gmap string string) : list string :=
  List.map path_name (elements (dirs d))
  ++ List.map path_name (elements (dom (files d)))
  ++ elements (dom claims).

(** The tree [d2] keeps what [d1] holds: every folder, and every file with
    its origin and its lines, the error log alone being allowed new lines
    at its end. *)
Definition keeps (error_log : Path) (d1 d2 : FS) : Prop :=
  dirs d1 ⊆ dirs d2
  /\ forall p c, files d1 !! p = Some c ->
       if decide (p = error_log)
       then exists extra,
              files d2 !! p = Some (mkContent (origin c) (appended c ++ extra))
       else files d2 !! p = Some c.

(** Apart from the error log, the two trees hold the same files. *)
Definition forall_others_same (error_log : Path) (d1 d2 : FS) : Prop :=
  forall p, p <> error_log -> files d2 !! p = files d1 !! p.

(** A pair that [backs_line] may store. *)
Definition well_paired (k v : string) : Prop :=
  k <> "" /\ v <> "" /\ str_strip k = k /\ str_strip v = v
  /\ ~ In ","%char (chars_of k).

(** A text as [sanitize_filename] leaves it inside: kept characters only,
    whitespace made of single plain blanks; [prev] tells whether a blank
    comes just before. *)
Fixpoint tidyb (prev : bool) (l : chars) : bool :=
  match l with
  | [] => true
  | c :: r =>
      if is_space c then negb prev && ceqb c " " && tidyb true r
      else kept c && tidyb false r
  end.

(** From [d1] to [d2] nothing happened but lines logged: the files other
    than the error log are the same, and a new folder can only be one made
    for the log. *)
Definition only_logged (error_log : Path) (d1 d2 : FS) : Prop :=
  keeps error_log d1 d2
  /\ (forall p, p <> error_log -> files d2 !! p = files d1 !! p)
  /\ (forall q, q ∈ dirs d2 -> q ∈ dirs d1 \/ In q (ancestors (path_parent error_log))).










(** * Properties *)

(** ** Text and characters *)

Lemma chars_of_text (l : chars) : chars_of (text l) = l.
Proof. apply list_ascii_of_string_of_list_ascii. Qed.

Lemma text_chars_of (s : string) : text (chars_of s) = s.
Proof. apply string_of_list_ascii_of_string. Qed.

Lemma text_inj (a b : chars) : text a = text b -> a = b.
Proof.
  intros H. rewrite <- (chars_of_text a), <- (chars_of_text b). now rewrite H.
Qed.

Lemma text_empty (l : chars) : text l = "" <-> l = [].
Proof.
  split; intros H.
  - apply text_inj. exact H.
  - now subst.
Qed.

(** ** The output tree *)

Lemma ancestors_self (p : Path) : In p (ancestors p).
Proof.
  unfold ancestors. apply in_map_iff. exists (List.length p). split.
  - apply firstn_all.
  - apply in_seq. lia.
Qed.

Lemma is_dir_true (d : FS) (p : Path) : is_dir d p = true <-> p ∈ dirs d.
Proof. unfold is_dir. apply bool_decide_eq_true. Qed.

Lemma mkdir_existing (d : FS) (p : Path) : is_dir d p = true -> mkdir d p = inr d.
Proof. intros H. unfold mkdir. now rewrite H. Qed.

Lemma mkdir_ok (d : FS) (p : Path) :
  (forall q, In q (ancestors p) -> is_file d q = false) ->
  exists d1, mkdir d p = inr d1 /\ is_dir d1 p = true /\ files d1 = files d
             /\ dirs d ⊆ dirs d1.
Proof.
  intros H. unfold mkdir. destruct (is_dir d p) eqn:E.
  - exists d. repeat split; auto.
  - assert (List.existsb (is_file d) (ancestors p) = false) as ->.
    { apply not_true_is_false. intros Hex. apply existsb_exists in Hex.
      destruct Hex as (q & Hq & Hf). rewrite (H q Hq) in Hf. discriminate. }
    eexists. split; [reflexivity|]. cbn [dirs files]. repeat split.
    + apply is_dir_true. cbn [dirs]. apply elem_of_union_r, elem_of_list_to_set.
      apply list_elem_of_In, ancestors_self.
    + set_solver.
Qed.

Lemma setdefault_lookup (b k key : string) (m : gmap string string) :
  setdefault b key m !! k
  = if decide (k = b) then Some (default key (m !! b)) else m !! k.
Proof.
  unfold setdefault. destruct (m !! b) eqn:E; destruct (decide (k = b)) as [->|N];
    simpl; auto.
  - apply lookup_insert_eq.
  - now apply lookup_insert_ne.
Qed.

(** C2. A base name that is in the snapshot taken before the run, or whose
    folder is already on disk, is given that very folder whatever the deck
    identity: the folder is made sure to exist, the claim is recorded only
    when the name has no owner yet, no other name is claimed and no numbered
    variant is involved. *)
Theorem choose_dest_dir_reuse
    (base_dir : Path) (base_name deck_key : string) (existing : gset string)
    (claims : gmap string string) (error_log : Path) (d : FS) :
  let b := sanitize_filename base_name in
  let target := join base_dir b in
  is_dir d target = true \/
  (b ∈ existing /\ forall q, In q (ancestors target) -> is_file d q = false) ->
  exists d1,
    choose_dest_dir base_dir base_name deck_key existing claims error_log d
      = inr (target, setdefault b deck_key claims, d1)
    /\ mkdir d target = inr d1
    /\ is_dir d1 target = true
    /\ files d1 = files d
    /\ (is_dir d target = true -> d1 = d)
    /\ setdefault b deck_key claims !! b = Some (default deck_key (claims !! b))
    /\ (forall k, k <> b -> setdefault b deck_key claims !! k = claims !! k).
Proof.
  intros b target H.
  assert (Hmk : exists d1, mkdir d target = inr d1 /\ is_dir d1 target = true
                           /\ files d1 = files d
                           /\ (is_dir d target = true -> d1 = d)).
  { destruct (is_dir d target) eqn:E.
    - exists d. rewrite (mkdir_existing _ _ E). auto.
    - destruct H as [H|[_ H]]; [discriminate|].
      destruct (mkdir_ok d target H) as (d1 & ? & ? & ? & _).
      exists d1. repeat split; auto. discriminate. }
  destruct Hmk as (d1 & Hm & Hd & Hf & Hsame).
  exists d1. unfold choose_dest_dir. fold b. fold target.
  assert (bool_decide (b ∈ existing) || path_exists d target = true) as ->.
  { destruct H as [H|[H _]].
    - unfold path_exists. rewrite H. apply orb_true_iff. right. reflexivity.
    - apply orb_true_iff. left. now apply bool_decide_eq_true. }
  rewrite Hm. simpl. repeat split; auto.
  - rewrite setdefault_lookup. now rewrite decide_True.
  - intros k Hk. rewrite setdefault_lookup. now rewrite decide_False.
Qed.

Lemma choose_dest_dir_reuse_witness :
  exists d1,
    choose_dest_dir Scenario.out "Deck A" "Deck B" {["Deck A"]}
      (<["Deck A" := "Deck A"]> ∅) Scenario.errors_txt Scenario.empty_disk
    = inr (["out"; "Deck A"],
           setdefault "Deck A" "Deck B" (<["Deck A" := "Deck A"]> ∅), d1)
    /\ is_dir d1 ["out"; "Deck A"] = true.
Proof.
  destruct (choose_dest_dir_reuse Scenario.out "Deck A" "Deck B" {["Deck A"]}
              (<["Deck A" := "Deck A"]> ∅) Scenario.errors_txt Scenario.empty_disk)
    as (d1 & H1 & _ & H2 & _).
  - right. split.
    + vm_compute. reflexivity.
    + intros q Hq. vm_compute. reflexivity.
  - exists d1. split; [exact H1 | exact H2].
Defined.

(** C9. A folder whose name already ends with the marker is returned as it
    is: the tree is left untouched, so nothing is renamed and no variant
    name is taken. *)
Theorem rename_with_suffix_marked
    (dest_dir : Path) (suffix : string) (error_log : Path) (d : FS) :
  endswith (path_name dest_dir) suffix = true ->
  rename_with_suffix dest_dir suffix error_log d = inr (dest_dir, d).
Proof.
  intros H. unfold rename_with_suffix. now rewrite H.
Qed.

Lemma rename_with_suffix_marked_witness :
  rename_with_suffix Scenario.ember_folder unique_marker Scenario.errors_txt
    Scenario.empty_disk
  = inr (Scenario.ember_folder, Scenario.empty_disk).
Proof.
  apply rename_with_suffix_marked. vm_compute. reflexivity.
Defined.

(** ** Matching *)

Lemma index_get_In (ix : Index) (k : string) (ps : list Path) :
  index_get ix k = Some ps -> In (k, ps) ix.
Proof.
  induction ix as [|[k0 ps0] r IH]; simpl; [discriminate|].
  destruct (decide (k0 = k)) as [->|N]; intros H.
  - injection H as ->. now left.
  - right. now apply IH.
Qed.

Lemma best_match_head (card_name : string) (index : Index) :
  buckets_nonempty index ->
  exists pick candidates exact,
    best_match card_name index = inr (pick, candidates, exact)
    /\ pick = List.head candidates
    /\ (pick = None <-> candidates = []).
Proof.
  intros Hne. unfold best_match.
  destruct (index_get index (normalize_key card_name)) as [bucket|] eqn:E.
  - destruct bucket as [|p ps].
    + apply index_get_In in E. now apply Hne in E.
    + exists (Some p), (p :: ps), true. repeat split; discriminate.
  - match goal with
    | |- context [match ?c with [] => _ | _ :: _ => _ end] =>
        destruct c as [|p ps] eqn:Ec
    end.
    + match goal with
      | |- context [match ?c with [] => _ | _ :: _ => _ end] =>
          destruct c as [|p ps] eqn:El
      end.
      * exists None, [], false. repeat split; auto.
      * exists (Some p), (p :: ps), false. repeat split; discriminate.
    + exists (Some p), (p :: ps), false. repeat split; discriminate.
Qed.



(** ** Back pairing *)





(** ** Sorting the buckets *)

Section Insertion.

Variable leb : Path -> Path -> bool.
Hypothesis leb_total : forall a b, leb a b = true \/ leb b a = true.
Hypothesis leb_trans :
  forall a b c, leb a b = true -> leb b c = true -> leb a c = true.

Let le := le_of leb.

Lemma insert_sorted_perm (x : Path) (l : list Path) :
  Permutation (insert_sorted leb x l) (x :: l).
Proof.
  induction l as [|y r IH]; simpl; [reflexivity|].
  destruct (leb x y); [reflexivity|].
  rewrite IH. apply perm_swap.
Qed.

Lemma sort_paths_perm (l : list Path) : Permutation (sort_paths leb l) l.
Proof.
  induction l as [|x r IH]; simpl; [reflexivity|].
  rewrite insert_sorted_perm. now apply perm_skip.
Qed.

Lemma insert_sorted_sorted (x : Path) (l : list Path) :
  StronglySorted le l -> StronglySorted le (insert_sorted leb x l).
Proof.
  induction 1 as [|y r Hr IH Hy]; simpl.
  - repeat constructor.
  - destruct (leb x y) eqn:E.
    + constructor; [now constructor|]. constructor; [exact E|].
      eapply Forall_impl; [exact Hy|]. intros z Hz. now apply (leb_trans x y z).
    + constructor; [exact IH|].
      assert (Hyx : le y x) by (destruct (leb_total x y); [congruence|assumption]).
      eapply Permutation_Forall; [symmetry; apply insert_sorted_perm|].
      now constructor.
Qed.

Lemma sort_paths_sorted (l : list Path) : StronglySorted le (sort_paths leb l).
Proof.
  induction l as [|x r IH]; simpl; [constructor|].
  now apply insert_sorted_sorted.
Qed.

End Insertion.

Lemma key_leb_total (eo : gmap string nat) (a b : Path) :
  key_leb eo a b = true \/ key_leb eo b a = true.
Proof.
  unfold key_leb.
  destruct (Nat.lt_trichotomy (ext_rank eo a) (ext_rank eo b)) as [H|[H|H]].
  - left. apply orb_true_iff. left. now apply Nat.ltb_lt.
  - rewrite H, Nat.eqb_refl. simpl.
    destruct (String.leb_total (sort_text a) (sort_text b)) as [-> | ->];
      [left|right]; apply orb_true_r.
  - right. apply orb_true_iff. left. now apply Nat.ltb_lt.
Qed.

Lemma str_leb_trans (a b c : string) :
  String.leb a b = true -> String.leb b c = true -> String.leb a c = true.
Proof.
  intros H1 H2. apply Is_true_true.
  apply Is_true_true in H1, H2.
  exact (transitivity (R := String.le) H1 H2).
Qed.

Lemma key_leb_trans (eo : gmap string nat) (a b c : Path) :
  key_leb eo a b = true -> key_leb eo b c = true -> key_leb eo a c = true.
Proof.
  unfold key_leb. intros H1 H2.
  apply orb_true_iff in H1, H2. apply orb_true_iff.
  destruct H1 as [H1|H1], H2 as [H2|H2].
  - left. apply Nat.ltb_lt in H1, H2. apply Nat.ltb_lt. lia.
  - left. apply andb_true_iff in H2 as [H2 _]. apply Nat.eqb_eq in H2.
    now rewrite <- H2.
  - left. apply andb_true_iff in H1 as [H1 _]. apply Nat.eqb_eq in H1.
    now rewrite H1.
  - right. apply andb_true_iff in H1 as [H1 L1]. apply andb_true_iff in H2 as [H2 L2].
    apply Nat.eqb_eq in H1, H2. apply andb_true_iff. split.
    + apply Nat.eqb_eq. lia.
    + now apply (str_leb_trans _ (sort_text b)).
Qed.

(** ** The index built by the scan *)

Lemma index_get_add (key k : string) (p : Path) (ix : Index) :
  index_get (index_add key p ix) k
  = if decide (k = key) then Some (default [] (index_get ix key) ++ [p])
    else index_get ix k.
Proof.
  induction ix as [|[k0 ps0] r IH]; simpl.
  - destruct (decide (key = k)), (decide (k = key)); congruence.
  - destruct (decide (k0 = key)) as [->|N]; simpl.
    + destruct (decide (key = k)), (decide (k = key)); congruence.
    + destruct (decide (k0 = k)) as [->|N2].
      * now rewrite decide_False by congruence.
      * exact IH.
Qed.

Lemma index_get_fold (l : list Path) (ix : Index) (k : string) :
  k <> "" ->
  index_get (List.fold_left index_step l ix) k
  = match index_get ix k, with_key k l with
    | None, [] => None
    | o, f => Some (default [] o ++ f)
    end.
Proof.
  intros Hk. revert ix. induction l as [|p r IH]; intros ix; simpl.
  - destruct (index_get ix k); simpl; [now rewrite app_nil_r|reflexivity].
  - rewrite IH. unfold index_step at 1. fold (key_of p).
    destruct (decide (key_of p = "")) as [E|N].
    + rewrite bool_decide_eq_false_2 by congruence. reflexivity.
    + rewrite index_get_add. destruct (decide (k = key_of p)) as [->|N2].
      * rewrite bool_decide_eq_true_2 by reflexivity. simpl.
        rewrite <- app_assoc. simpl.
        destruct (index_get ix (key_of p)); simpl; reflexivity.
      * rewrite bool_decide_eq_false_2 by congruence. reflexivity.
Qed.

Lemma index_get_fold_empty (l : list Path) (ix : Index) :
  index_get (List.fold_left index_step l ix) "" = index_get ix "".
Proof.
  revert ix. induction l as [|p r IH]; intros ix; simpl; [reflexivity|].
  rewrite IH. unfold index_step. destruct (decide _) as [E|N]; [reflexivity|].
  rewrite index_get_add. now rewrite decide_False by congruence.
Qed.

Lemma index_get_map (f : list Path -> list Path) (ix : Index) (k : string) :
  index_get (List.map (fun kv => (fst kv, f (snd kv))) ix) k
  = option_map f (index_get ix k).
Proof.
  induction ix as [|[k0 ps0] r IH]; simpl; [reflexivity|].
  destruct (decide (k0 = k)); [reflexivity|exact IH].
Qed.

(** What the indexer returns when the library is there. *)
Lemma index_library_built (lib : Library) (exts : list string) (error_log : Path)
    (d : FS) (index : Index) (catalog : list Path) (d1 : FS) :
  lib_exists lib = true ->
  index_library lib exts error_log d = inr (index, catalog, d1) ->
  catalog = scan lib exts /\ d1 = d
  /\ index = List.map (fun kv => (fst kv, sort_paths (key_leb (ext_order exts)) (snd kv)))
               (List.fold_left index_step (scan lib exts) []).
Proof.
  intros He H. unfold index_library in H. rewrite He in H. simpl in H.
  injection H as <- <- <-. auto.
Qed.

(** The bucket of a key is the sorted list of the scanned files of that
    key, and it is never empty. *)
Lemma index_library_bucket (lib : Library) (exts : list string) (error_log : Path)
    (d : FS) (index : Index) (catalog : list Path) (d1 : FS) (k : string)
    (bucket : list Path) :
  index_library lib exts error_log d = inr (index, catalog, d1) ->
  index_get index k = Some bucket ->
  lib_exists lib = true /\ k <> "" /\ with_key k (scan lib exts) <> []
  /\ bucket = sort_paths (key_leb (ext_order exts)) (with_key k (scan lib exts)).
Proof.
  intros H Hget. destruct (lib_exists lib) eqn:He.
  - destruct (index_library_built _ _ _ _ _ _ _ He H) as (_ & _ & ->).
    rewrite index_get_map in Hget. destruct (decide (k = "")) as [->|Hk].
    + now rewrite index_get_fold_empty in Hget.
    + rewrite (index_get_fold _ _ _ Hk) in Hget. simpl in Hget.
      destruct (with_key k (scan lib exts)) as [|q r] eqn:Ew; [discriminate|].
      simpl in Hget. injection Hget as <-. repeat split; auto.
  - unfold index_library in H. rewrite He in H. simpl in H.
    destruct (log _ error_log d); simpl in H; [discriminate|].
    injection H as <- _ _. discriminate.
Qed.

(** C6, as stated, fails: two files of one stem whose folders differ in
    case are ordered by the lowered path text, so the bucket is not in the
    ascending order of the path texts themselves, and the pick is not the
    least path. *)
Lemma bucket_order_ignores_case :
  index_get (fst (Scenario.built Scenario.case_lib [".png"])) (normalize_key "x")
    = Some [["lib"; "a"; "x.png"]; ["lib"; "B"; "x.png"]]
  /\ best_match "x" (fst (Scenario.built Scenario.case_lib [".png"]))
     = inr (Some ["lib"; "a"; "x.png"],
            [["lib"; "a"; "x.png"]; ["lib"; "B"; "x.png"]], true)
  /\ ~ StronglySorted (le_of (spec_key_leb (ext_order [".png"])))
         [["lib"; "a"; "x.png"]; ["lib"; "B"; "x.png"]].
Proof.
  split; [vm_compute; reflexivity|]. split; [vm_compute; reflexivity|].
  intros H. inversion H as [|? ? _ Hall]. subst.
  inversion Hall as [|? ? Hle _]. subst.
  vm_compute in Hle. discriminate.
Qed.

(** C6, amended. For a name whose normalized form is a key of the index the
    indexer built, [best_match] returns the first entry of the bucket as the
    pick, the whole bucket as candidates and the exact flag; the bucket
    holds the scanned files of that key, sorted by the rank of the lowered
    extension in the preference list (999 for an extension that is not in
    it) and then by the lowered path text. *)
Theorem best_match_exact
    (lib : Library) (exts : list string) (error_log : Path) (d : FS)
    (index : Index) (catalog : list Path) (d1 : FS)
    (card_name : string) (bucket : list Path) :
  index_library lib exts error_log d = inr (index, catalog, d1) ->
  index_get index (normalize_key card_name) = Some bucket ->
  exists p rest,
    bucket = p :: rest
    /\ best_match card_name index = inr (Some p, bucket, true)
    /\ StronglySorted (le_of (key_leb (ext_order exts))) bucket
    /\ Forall (fun q => key_leb (ext_order exts) p q = true) rest
    /\ Permutation bucket (with_key (normalize_key card_name) (scan lib exts)).
Proof.
  intros Hix Hget.
  destruct (index_library_bucket _ _ _ _ _ _ _ _ _ Hix Hget) as (_ & _ & Hne & Hb).
  assert (Hs : StronglySorted (le_of (key_leb (ext_order exts))) bucket).
  { rewrite Hb. apply sort_paths_sorted.
    - apply key_leb_total.
    - apply key_leb_trans. }
  assert (Hp : Permutation bucket (with_key (normalize_key card_name) (scan lib exts))).
  { rewrite Hb. apply sort_paths_perm. }
  destruct bucket as [|p rest].
  - apply Permutation_nil in Hp. congruence.
  - exists p, rest. split; [reflexivity|]. split.
    + unfold best_match. now rewrite Hget.
    + split; [exact Hs|]. split; [|exact Hp]. now inversion Hs.
Qed.

Lemma best_match_exact_witness :
  exists p rest,
    [["lib"; "Card.png"]; ["lib"; "Card.jpg"]] = p :: rest
    /\ best_match "Card" (fst (Scenario.built Scenario.card_lib [".png"; ".jpg"]))
       = inr (Some p, [["lib"; "Card.png"]; ["lib"; "Card.jpg"]], true)
    /\ StronglySorted (le_of (key_leb (ext_order [".png"; ".jpg"])))
         [["lib"; "Card.png"]; ["lib"; "Card.jpg"]]
    /\ Forall (fun q => key_leb (ext_order [".png"; ".jpg"]) p q = true) rest
    /\ Permutation [["lib"; "Card.png"]; ["lib"; "Card.jpg"]]
         (with_key (normalize_key "Card") (scan Scenario.card_lib [".png"; ".jpg"])).
Proof.
  apply (best_match_exact Scenario.card_lib [".png"; ".jpg"] Scenario.errors_txt
           Scenario.empty_disk _
           (snd (Scenario.built Scenario.card_lib [".png"; ".jpg"]))
           Scenario.empty_disk "Card").
  - vm_compute. reflexivity.
  - vm_compute. reflexivity.
Defined.

(** The instance of the specification: of [Card.png] and [Card.jpg], with
    the preference for the first extension, the pick is [Card.png]. *)
Example best_match_card_png :
  best_match "Card" (fst (Scenario.built Scenario.card_lib [".png"; ".jpg"]))
  = inr (Some ["lib"; "Card.png"], [["lib"; "Card.png"]; ["lib"; "Card.jpg"]], true).
Proof. vm_compute. reflexivity. Qed.

(** ** Files without a key *)

Lemma key_of_nonempty (p : Path) (c : ascii) :
  In c (chars_of (path_stem p)) -> is_key_char (lower_char c) = true ->
  key_of p <> "".
Proof.
  intros Hin Hk E. unfold key_of, normalize_key in E. apply text_empty in E.
  assert (Hf : In (lower_char c) (normalize_chars (chars_of (path_stem p)))).
  { unfold normalize_chars, lower. apply filter_In. split; [|exact Hk].
    now apply in_map. }
  rewrite E in Hf. contradiction.
Qed.

Lemma starts_with_head (c : ascii) (n hay : chars) :
  starts_with (c :: n) hay = true -> In c hay.
Proof.
  destruct hay as [|h r]; simpl; [discriminate|].
  intros H. apply andb_true_iff in H as [H _].
  apply Ascii.eqb_eq in H. now left.
Qed.

Lemma contains_head (c : ascii) (n hay : chars) :
  contains (c :: n) hay = true -> In c hay.
Proof.
  induction hay as [|h r IH]; intros H.
  - simpl in H. discriminate.
  - change (starts_with (c :: n) (h :: r) || contains (c :: n) r = true) in H.
    apply orb_true_iff in H as [H|H].
    + now apply starts_with_head in H.
    + right. now apply IH.
Qed.

Lemma runs_key_char (l cur : chars) :
  runs cur l <> [] -> cur <> [] \/ exists c, In c l /\ is_key_char c = true.
Proof.
  revert cur. induction l as [|c r IH]; intros cur H; simpl in H.
  - left. intros ->. now apply H.
  - destruct (is_key_char c) eqn:E.
    + right. exists c. split; [now left|exact E].
    + destruct cur as [|c0 cur0].
      * destruct (IH [] H) as [N|(x & Hx & Hk)]; [congruence|].
        right. exists x. split; [now right|exact Hk].
      * left. discriminate.
Qed.

Lemma to_close_In (l g : chars) (c : ascii) :
  to_close l = Some g -> In c g -> In c l.
Proof.
  revert g. induction l as [|x r IH]; intros g H Hc; simpl in H; [discriminate|].
  destruct (ceqb x ")").
  - injection H as <-. contradiction.
  - destruct (to_close r) as [g0|]; [|discriminate]. injection H as <-.
    destruct Hc as [->|Hc]; [now left|]. right. now apply (IH g0).
Qed.

Lemma paren_groups_In (l : chars) (k : nat) (g : chars) (c : ascii) :
  In g (paren_groups k l) -> In c g -> In c l.
Proof.
  revert k. induction l as [|x r IH]; intros k H Hc; cbn [paren_groups] in H;
    [contradiction|].
  destruct k as [|k].
  - destruct (ceqb x "(").
    + destruct (to_close r) as [g0|] eqn:E.
      * destruct (2 <=? List.length g0).
        -- destruct H as [<-|H].
           ++ right. now apply (to_close_In r g0).
           ++ right. now apply (IH _ H).
        -- right. now apply (IH _ H).
      * right. now apply (IH _ H).
    + right. now apply (IH _ H).
  - right. now apply (IH _ H).
Qed.

Lemma token_set_nonempty (l : chars) :
  token_set (text l) <> ∅ -> exists c, In c l /\ is_key_char (lower_char c) = true.
Proof.
  intros H. unfold token_set, tokenize in H. rewrite chars_of_text in H.
  destruct (tokenize_chars l) as [|t ts] eqn:E; [exfalso; apply H; reflexivity|].
  unfold tokenize_chars in E.
  destruct (runs_key_char (lower l) []) as [N|(c & Hc & Hk)].
  - rewrite E. discriminate.
  - congruence.
  - unfold lower in Hc. apply in_map_iff in Hc as (c0 & <- & Hc0). now exists c0.
Qed.

Lemma paren_backs_key (base : string) (catalog : list Path) (p : Path) :
  In p (paren_backs base catalog) -> key_of p <> "".
Proof.
  unfold paren_backs. destruct (bool_decide (token_set base = ∅)) eqn:E; [contradiction|].
  apply bool_decide_eq_false in E.
  intros H. apply filter_In in H as [_ H]. unfold group_mentions in H.
  apply existsb_exists in H as (g & Hg & Hsub). apply bool_decide_eq_true in Hsub.
  destruct (token_set_nonempty g) as (c & Hc & Hk).
  - intros E0. rewrite E0 in Hsub. apply E. now apply equiv_empty_L.
  - apply (key_of_nonempty p c); [|exact Hk]. now apply (paren_groups_In _ 0 g).
Qed.

Lemma keyword_backs_key (base : string) (catalog : list Path) (p : Path) :
  In p (keyword_backs base catalog) -> key_of p <> "".
Proof.
  unfold keyword_backs. intros H. apply filter_In in H as [_ H].
  apply andb_true_iff in H as [H _]. unfold str_lower in H. rewrite chars_of_text in H.
  apply contains_head in H. unfold lower in H. apply in_map_iff in H as (c & Hc & Hin).
  apply (key_of_nonempty p c Hin). rewrite Hc. reflexivity.
Qed.

(** C10, last clause, fails: neither heuristic over the flat catalog can
    return a file whose stem normalizes to the empty key, since one needs a
    token of the front card in the stem and the other the word back. *)
Lemma heuristics_need_a_key :
  ~ exists (base : string) (catalog : list Path) (p : Path),
      key_of p = "" /\ (In p (paren_backs base catalog) \/ In p (keyword_backs base catalog)).
Proof.
  intros (base & catalog & p & E & [H|H]).
  - now apply paren_backs_key in H.
  - now apply keyword_backs_key in H.
Qed.

Lemma keyed_add (p : Path) (ix : Index) :
  key_of p <> "" -> keyed ix -> keyed (index_add (key_of p) p ix).
Proof.
  intros Hk. induction ix as [|[k0 ps0] r IH]; intros Hix k ps Hin.
  - destruct Hin as [Hin|[]]. injection Hin as <- <-.
    repeat split; [exact Hk|discriminate|]. intros q [<-|[]]. reflexivity.
  - simpl in Hin. destruct (decide (k0 = key_of p)) as [->|N].
    + destruct Hin as [Hin|Hin].
      * injection Hin as <- <-.
        destruct (Hix (key_of p) ps0 (or_introl eq_refl)) as (_ & _ & H).
        repeat split; [exact Hk| |].
        -- intros E. apply app_eq_nil in E as [_ E]. discriminate.
        -- intros q Hq. apply in_app_iff in Hq as [Hq|[<-|[]]]; auto.
      * apply Hix. now right.
    + destruct Hin as [Hin|Hin].
      * apply Hix. now left.
      * apply IH; [|exact Hin]. intros k' ps' H'. apply Hix. now right.
Qed.

Lemma keyed_fold (l : list Path) (ix : Index) :
  keyed ix -> keyed (List.fold_left index_step l ix).
Proof.
  revert ix. induction l as [|p r IH]; intros ix H; simpl; [exact H|].
  apply IH. unfold index_step. fold (key_of p).
  destruct (decide (key_of p = "")); [exact H|]. now apply keyed_add.
Qed.

Lemma keyed_sorted (f : list Path -> list Path) (ix : Index) :
  (forall l, Permutation (f l) l) -> keyed ix ->
  keyed (List.map (fun kv => (fst kv, f (snd kv))) ix).
Proof.
  intros Hf Hix k ps Hin. apply in_map_iff in Hin as ([k0 ps0] & E & Hin).
  simpl in E. injection E as <- <-. destruct (Hix _ _ Hin) as (Hk & Hne & Hq).
  repeat split; [exact Hk| |].
  - intros E. apply Hne. apply Permutation_nil. rewrite <- E. apply Hf.
  - intros q Hin'. apply Hq. eapply Permutation_in; [apply Hf|exact Hin'].
Qed.

Lemma index_library_keyed (lib : Library) (exts : list string) (error_log : Path)
    (d : FS) (index : Index) (catalog : list Path) (d1 : FS) :
  index_library lib exts error_log d = inr (index, catalog, d1) -> keyed index.
Proof.
  intros H. unfold index_library in H. destruct (lib_exists lib); simpl in H.
  - injection H as <- _ _. apply keyed_sorted.
    + intros l. apply sort_paths_perm.
    + apply keyed_fold. intros k ps [].
  - destruct (log _ error_log d); simpl in H; [discriminate|].
    injection H as <- _ _. intros k ps [].
Qed.

Lemma keyed_buckets_nonempty (ix : Index) : keyed ix -> buckets_nonempty ix.
Proof. intros H k ps Hin. now destruct (H k ps Hin) as (_ & ? & _). Qed.

Lemma indexed_In (ix : Index) (k : string) (ps : list Path) (q : Path) :
  In (k, ps) ix -> In q ps -> In q (indexed ix).
Proof.
  intros H Hq. unfold indexed. apply in_concat. exists ps. split; [|exact Hq].
  apply in_map_iff. now exists (k, ps).
Qed.

Lemma keyed_indexed (ix : Index) (q : Path) :
  keyed ix -> In q (indexed ix) -> key_of q <> "".
Proof.
  intros Hix H. unfold indexed in H. apply in_concat in H as (ps & Hps & Hq).
  apply in_map_iff in Hps as ([k ps0] & E & Hin). simpl in E. subst ps0.
  destruct (Hix _ _ Hin) as (Hk & _ & Hall). now rewrite (Hall q Hq).
Qed.

Lemma buckets_of_indexed (ix : Index) (ks : list string) (q : Path) :
  In q (buckets_of ix ks) -> In q (indexed ix).
Proof.
  unfold buckets_of. intros H. apply in_concat in H as (ps & Hps & Hq).
  apply in_map_iff in Hps as (k & E & _).
  destruct (index_get ix k) as [ps0|] eqn:G; simpl in E; subst ps.
  - apply index_get_In in G. now apply (indexed_In ix k ps0).
  - contradiction.
Qed.

Lemma pitch_filter_In (pitch : option string) (l : list Path) (q : Path) :
  In q (pitch_filter pitch l) -> In q l.
Proof.
  destruct pitch; simpl; [|auto]. intros H. now apply filter_In in H as [H _].
Qed.

(** Whatever [best_match] returns comes from the index. *)
Lemma best_match_indexed (card_name : string) (index : Index)
    (pick : option Path) (candidates : list Path) (exact : bool) :
  best_match card_name index = inr (pick, candidates, exact) ->
  (forall q, In q candidates -> In q (indexed index))
  /\ (forall q, pick = Some q -> In q (indexed index)).
Proof.
  unfold best_match.
  destruct (index_get index (normalize_key card_name)) as [bucket|] eqn:E.
  - destruct bucket as [|p ps]; [discriminate|]. intros H. injection H as <- <- <-.
    apply index_get_In in E. split.
    + intros q. now apply (indexed_In index _ _ q E).
    + intros q H. injection H as <-. apply (indexed_In index _ _ p E). now left.
  - match goal with
    | |- context [match ?c with [] => _ | _ :: _ => _ end] =>
        destruct c as [|p ps] eqn:Ec
    end.
    + match goal with
      | |- context [match ?c with [] => _ | _ :: _ => _ end] =>
          destruct c as [|p ps] eqn:El
      end.
      * intros H. injection H as <- <- <-. split; [contradiction|discriminate].
      * intros H. injection H as <- <- <-.
        assert (Hall : forall q, In q (p :: ps) -> In q (indexed index)).
        { intros q Hq. rewrite <- El in Hq. apply in_concat in Hq as (l & Hl & Hq).
          apply in_map_iff in Hl as ([k v] & Ekv & Hin). cbn [fst snd] in Ekv.
          destruct (_ && _) in Ekv; subst l; [|contradiction].
          now apply (indexed_In index k v). }
        split; [exact Hall|]. intros q H. injection H as <-. apply Hall. now left.
    + intros H. injection H as <- <- <-.
      assert (Hall : forall q, In q (p :: ps) -> In q (indexed index)).
      { intros q Hq. rewrite <- Ec in Hq. apply pitch_filter_In in Hq.
        now apply buckets_of_indexed in Hq. }
      split; [exact Hall|]. intros q H. injection H as <-. apply Hall. now left.
Qed.

Lemma dedup_backs_In (l : list Path) (seen : gset (string * string)) (q : Path) :
  In q (dedup_backs seen l) -> In q l.
Proof.
  revert seen. induction l as [|p r IH]; intros seen H; simpl in H; [contradiction|].
  destruct (bool_decide (dedup_key p ∈ seen)).
  - right. now apply (IH seen).
  - destruct H as [<-|H]; [now left|]. right. now apply (IH _ H).
Qed.

Lemma override_backs_indexed (keys : list string) (index : Index)
    (m : gmap string string) (q : Path) :
  In q (override_backs keys index m) -> In q (indexed index).
Proof.
  induction keys as [|k r IH]; simpl; [contradiction|].
  destruct (m !! k) as [back|]; [|exact IH].
  destruct (index_get index (normalize_key back)) as [ps|] eqn:G; [|exact IH].
  intros H. apply index_get_In in G.
  now apply (indexed_In index (normalize_key back) ps).
Qed.

Lemma orelse_In (a b : list Path) (q : Path) :
  In q (orelse a b) -> In q a \/ In q b.
Proof. destruct a; simpl; auto. Qed.

(** A resolved back is a file of the index or a catalog file with a key. *)
Lemma resolve_backs_key (front_card : string) (src : Path) (index : Index)
    (catalog : list Path) (m : gmap string string) (q : Path) :
  keyed index -> In q (resolve_backs front_card src index catalog m) ->
  key_of q <> "".
Proof.
  intros Hix H. unfold resolve_backs in H. apply dedup_backs_In in H.
  apply orelse_In in H as [H|H]; [|now apply keyword_backs_key in H].
  apply orelse_In in H as [H|H]; [|now apply paren_backs_key in H].
  apply (keyed_indexed index); [exact Hix|].
  apply orelse_In in H as [H|H].
  - now apply buckets_of_indexed in H.
  - now apply override_backs_indexed in H.
Qed.

(** C10, amended. The flat catalog holds every file the scan finds, while a
    file whose stem normalizes to the empty key is in no bucket of the
    index; so no match returns it, as pick or as candidate, and neither
    does the resolution of backs, whose catalog heuristics need a key
    character in the stem. *)
Theorem empty_key_files
    (lib : Library) (exts : list string) (error_log : Path) (d : FS)
    (index : Index) (catalog : list Path) (d1 : FS) :
  index_library lib exts error_log d = inr (index, catalog, d1) ->
  catalog = (if lib_exists lib then scan lib exts else [])
  /\ forall p, key_of p = "" ->
       ~ In p (indexed index)
       /\ (forall card_name, exists pick candidates exact,
             best_match card_name index = inr (pick, candidates, exact)
             /\ pick <> Some p /\ ~ In p candidates)
       /\ (forall front_card src m,
             ~ In p (resolve_backs front_card src index catalog m)).
Proof.
  intros H. pose proof (index_library_keyed _ _ _ _ _ _ _ H) as Hix. split.
  - unfold index_library in H. destruct (lib_exists lib); simpl in H.
    + now injection H as _ <- _.
    + destruct (log _ error_log d); simpl in H; [discriminate|].
      now injection H as _ <- _.
  - intros p Hp. split; [|split].
    + intros Hin. exact (keyed_indexed index p Hix Hin Hp).
    + intros card_name.
      destruct (best_match_head card_name index (keyed_buckets_nonempty _ Hix))
        as (pick & cands & exact & Hbm & _).
      exists pick, cands, exact. split; [exact Hbm|].
      destruct (best_match_indexed _ _ _ _ _ Hbm) as (Hc & Hpk). split.
      * intros E. exact (keyed_indexed index p Hix (Hpk p E) Hp).
      * intros Hin. exact (keyed_indexed index p Hix (Hc p Hin) Hp).
    + intros front_card src m Hin.
      exact (resolve_backs_key _ _ _ _ _ _ Hix Hin Hp).
Qed.

Lemma empty_key_files_witness :
  In Scenario.dash_file (snd (Scenario.built Scenario.dash_lib [".png"]))
  /\ ~ In Scenario.dash_file (indexed (fst (Scenario.built Scenario.dash_lib [".png"])))
  /\ forall front_card src m,
       ~ In Scenario.dash_file
           (resolve_backs front_card src
              (fst (Scenario.built Scenario.dash_lib [".png"]))
              (snd (Scenario.built Scenario.dash_lib [".png"])) m).
Proof.
  destruct (empty_key_files Scenario.dash_lib [".png"] Scenario.errors_txt
              Scenario.empty_disk
              (fst (Scenario.built Scenario.dash_lib [".png"]))
              (snd (Scenario.built Scenario.dash_lib [".png"]))
              Scenario.empty_disk) as (Hcat & Hfile).
  - vm_compute. reflexivity.
  - destruct (Hfile Scenario.dash_file) as (H1 & _ & H3).
    + vm_compute. reflexivity.
    + split; [|split; [exact H1|exact H3]].
      rewrite Hcat. vm_compute. left. reflexivity.
Defined.

(** The empty key is the key of the stems without letter or digit. *)
Lemma key_of_empty (p : Path) :
  key_of p = "" <->
  Forall (fun c => is_key_char (lower_char c) = false) (chars_of (path_stem p)).
Proof.
  unfold key_of, normalize_key. rewrite text_empty. unfold normalize_chars, lower.
  induction (chars_of (path_stem p)) as [|c r IH]; simpl.
  - split; [constructor|reflexivity].
  - destruct (is_key_char (lower_char c)) eqn:E.
    + split; [discriminate|]. intros H. inversion H. congruence.
    + rewrite IH. split; [now constructor|]. intros H. now inversion H.
Qed.

(** ** The cache of resolved backs *)

(** C7, as stated, fails: two spellings with one normalized key resolve to
    different backs, because the override map is consulted under the raw
    name, and one name resolves differently for two matched files; so the
    answer served from the cache for the second spelling is not the one an
    uncached computation gives. *)
Lemma backs_depend_on_spelling :
  normalize_key "Foo" = normalize_key "foo"
  /\ best_match "Foo" (fst (Scenario.built Scenario.foo_lib [".png"]))
     = best_match "foo" (fst (Scenario.built Scenario.foo_lib [".png"]))
  /\ resolve_backs "Foo" ["lib"; "Foo.png"]
       (fst (Scenario.built Scenario.foo_lib [".png"]))
       (snd (Scenario.built Scenario.foo_lib [".png"])) Scenario.foo_map
     = [["lib"; "Bar.png"]]
  /\ resolve_backs "foo" ["lib"; "Foo.png"]
       (fst (Scenario.built Scenario.foo_lib [".png"]))
       (snd (Scenario.built Scenario.foo_lib [".png"])) Scenario.foo_map
     = []
  /\ fst (find_back_images "foo" ["lib"; "Foo.png"]
            (fst (Scenario.built Scenario.foo_lib [".png"]))
            (snd (Scenario.built Scenario.foo_lib [".png"])) Scenario.foo_map
            (snd (find_back_images "Foo" ["lib"; "Foo.png"]
                    (fst (Scenario.built Scenario.foo_lib [".png"]))
                    (snd (Scenario.built Scenario.foo_lib [".png"]))
                    Scenario.foo_map ∅)))
     = [["lib"; "Bar.png"]]
  /\ resolve_backs "Foo" ["lib"; "Foo.png"]
       (fst (Scenario.built Scenario.baz_lib [".png"]))
       (snd (Scenario.built Scenario.baz_lib [".png"])) ∅
     <> resolve_backs "Foo" ["lib"; "Baz.png"]
          (fst (Scenario.built Scenario.baz_lib [".png"]))
          (snd (Scenario.built Scenario.baz_lib [".png"])) ∅.
Proof.
  repeat split; try (vm_compute; reflexivity).
  vm_compute. discriminate.
Qed.

(** The matched file enters the resolution through its bare stem only. *)
Lemma resolve_backs_src (front_card : string) (src1 src2 : Path) (index : Index)
    (catalog : list Path) (m : gmap string string) :
  bare_name (path_stem src1) = bare_name (path_stem src2) ->
  resolve_backs front_card src1 index catalog m
  = resolve_backs front_card src2 index catalog m.
Proof.
  intros H. unfold resolve_backs, explicit_backs, explicit_names. now rewrite H.
Qed.

(** C7, amended. The first invocation for a normalized key computes the
    backs from the raw name and the matched file and stores them; a later
    invocation with a name of the same key returns the stored list and
    leaves the cache as it is.  That answer is the one an uncached
    computation gives when the later invocation has the same raw name and a
    matched file of the same bare stem. *)
Theorem find_back_images_memo
    (front1 front2 : string) (src1 src2 : Path) (index : Index)
    (catalog : list Path) (m : gmap string string) (cache : gmap string (list Path)) :
  normalize_key front1 = normalize_key front2 ->
  cache !! normalize_key front1 = None ->
  let first := find_back_images front1 src1 index catalog m cache in
  let second := find_back_images front2 src2 index catalog m (snd first) in
  fst first = resolve_backs front1 src1 index catalog m
  /\ snd first = <[normalize_key front1 := fst first]> cache
  /\ fst second = fst first
  /\ snd second = snd first
  /\ (front2 = front1 ->
      bare_name (path_stem src2) = bare_name (path_stem src1) ->
      fst second = resolve_backs front2 src2 index catalog m).
Proof.
  intros Hk Hmiss first second.
  assert (E1 : first = (resolve_backs front1 src1 index catalog m,
                        <[normalize_key front1 :=
                            resolve_backs front1 src1 index catalog m]> cache)).
  { unfold first, find_back_images. now rewrite Hmiss. }
  assert (E2 : second = (fst first, snd first)).
  { unfold second, find_back_images. rewrite <- Hk, E1. cbn [fst snd].
    now rewrite lookup_insert_eq. }
  rewrite E2. cbn [fst snd]. rewrite E1. cbn [fst snd].
  repeat split; auto.
  intros -> Hs. now apply resolve_backs_src.
Qed.

Lemma find_back_images_memo_witness :
  normalize_key "Foo" = normalize_key "foo"
  /\ fst (find_back_images "foo" ["lib"; "Foo.png"]
            (fst (Scenario.built Scenario.foo_lib [".png"]))
            (snd (Scenario.built Scenario.foo_lib [".png"])) Scenario.foo_map
            (snd (find_back_images "Foo" ["lib"; "Foo.png"]
                    (fst (Scenario.built Scenario.foo_lib [".png"]))
                    (snd (Scenario.built Scenario.foo_lib [".png"]))
                    Scenario.foo_map ∅)))
     = fst (find_back_images "Foo" ["lib"; "Foo.png"]
              (fst (Scenario.built Scenario.foo_lib [".png"]))
              (snd (Scenario.built Scenario.foo_lib [".png"]))
              Scenario.foo_map ∅).
Proof.
  split; [vm_compute; reflexivity|].
  refine (proj1 (proj2 (proj2
    (find_back_images_memo "Foo" "foo" ["lib"; "Foo.png"] ["lib"; "Foo.png"]
       (fst (Scenario.built Scenario.foo_lib [".png"]))
       (snd (Scenario.built Scenario.foo_lib [".png"])) Scenario.foo_map ∅ _ _)))).
  - vm_compute. reflexivity.
  - reflexivity.
Defined.

(** ** End to end *)

(** A closed decidable statement is settled by evaluating its decision. *)
Ltac by_evaluation := apply (bool_decide_unpack _); vm_compute; exact I.

(** C4, as stated, fails: the run writes no file under the front names of
    the claim, which keep the capital of the decklist. *)
Lemma ember_front_names_absent :
  main Scenario.ember_args Scenario.ember_decks Scenario.empty_disk
    = inr Scenario.ember_outcome
  /\ List.existsb
       (fun kv =>
          bool_decide (path_name (fst kv) = "Ember's Call (Red) - 1 of 2.png")
          || bool_decide (path_name (fst kv) = "Ember's Call (Red) - 2 of 2.png"))
       (map_to_list (files Scenario.ember_outcome)) = false.
Proof.
  split; [by_evaluation|]. vm_compute. reflexivity.
Qed.

(** C4, amended. The decklist line is parsed into two copies of the name
    with the pitch in its canonical lowered form; the run writes exactly two
    copies of the front under that name, numbered 1 of 2 and 2 of 2, two
    copies of the back under the bare name with the back marker, and leaves
    them in the deck folder renamed with the marker of unique backs. *)
Theorem ember_scenario :
  card_entry "2x Ember's Call (Red)" = Some (2, "Ember's Call (red)")
  /\ main Scenario.ember_args Scenario.ember_decks Scenario.empty_disk
     = inr (mkFS {[ []; Scenario.out; ["out"; "deck - Unique front and backs"] ]}
              (list_to_map
                 [ (["out"; "deck - Unique front and backs";
                     "Ember's Call (red) - 1 of 2.png"],
                    mkContent (Some Scenario.ember_front) []);
                   (["out"; "deck - Unique front and backs";
                     "Ember's Call (red) - 2 of 2.png"],
                    mkContent (Some Scenario.ember_front) []);
                   (["out"; "deck - Unique front and backs";
                     "Ember's Call (Back) - 1 of 2.png"],
                    mkContent (Some Scenario.ember_back) []);
                   (["out"; "deck - Unique front and backs";
                     "Ember's Call (Back) - 2 of 2.png"],
                    mkContent (Some Scenario.ember_back) []) ])).
Proof.
  split; by_evaluation.
Qed.

(** C1 fails on the code. A second run over the tree left by the first run
    of the end-to-end scenario finds no folder under the base name, since
    the first run renamed it: it makes the folder anew, copies the four
    files again and renames the new folder to a numbered variant. *)
Theorem rerun_duplicates_deck_with_backs :
  main Scenario.ember_args Scenario.ember_decks Scenario.empty_disk
    = inr Scenario.ember_outcome
  /\ main Scenario.ember_args Scenario.ember_decks Scenario.ember_outcome
     = inr Scenario.ember_rerun
  /\ size (dom (files Scenario.ember_outcome)) = 4
  /\ size (dom (files Scenario.ember_rerun)) = 8
  /\ (Scenario.ember_variant ∉ dirs Scenario.ember_outcome)
  /\ (Scenario.ember_variant ∈ dirs Scenario.ember_rerun).
Proof.
  repeat split; by_evaluation.
Qed.

(** C3 fails on the code. Of two decks of different identity that meet on
    the fresh name Storm, the second is given the folder of the first: once
    the first call has made the folder, the test for an existing target
    answers before the claims are looked at, and no variant is made. *)
Theorem storm_collision_shares_folder :
  (exists claims1 d1,
     choose_dest_dir Scenario.out "Storm" "Deck A" ∅ ∅ Scenario.errors_txt
       Scenario.empty_disk
     = inr (["out"; "Storm"], claims1, d1)
     /\ claims1 !! "Storm" = Some "Deck A"
     /\ choose_dest_dir Scenario.out "Storm" "Deck B" ∅ claims1 Scenario.errors_txt d1
        = inr (["out"; "Storm"], claims1, d1))
  /\ main Scenario.storm_args Scenario.storm_decks Scenario.empty_disk
     = inr Scenario.storm_outcome
  /\ (["out"; "Storm (variant 2)"] ∉ dirs Scenario.storm_outcome).
Proof.
  split; [|split]; [|by_evaluation..].
  exists (<["Storm" := "Deck A"]> ∅),
         (mkFS {[ []; Scenario.out; ["out"; "Storm"] ]} ∅).
  repeat split; by_evaluation.
Qed.

(** ** The search for a free number *)

Lemma first_free_some (busy : nat -> bool) (fuel n m : nat) :
  first_free busy fuel n = Some m ->
  n <= m /\ m < n + fuel /\ busy m = false
  /\ forall j, n <= j -> j < m -> busy j = true.
Proof.
  revert n. induction fuel as [|f IH]; intros n H; simpl in H; [discriminate|].
  destruct (busy n) eqn:E.
  - destruct (IH _ H) as (H1 & H2 & H3 & H4). repeat split; [lia|lia|exact H3|].
    intros j Hj Hm. destruct (Nat.eq_dec j n) as [->|N]; [exact E|].
    apply H4; lia.
  - injection H as <-. repeat split; [lia|lia|exact E|]. intros j Hj Hm. lia.
Qed.

Lemma first_free_none (busy : nat -> bool) (fuel n : nat) :
  first_free busy fuel n = None ->
  forall j, n <= j -> j < n + fuel -> busy j = true.
Proof.
  revert n. induction fuel as [|f IH]; intros n H j Hj Hm; [lia|].
  simpl in H. destruct (busy n) eqn:E; [|discriminate].
  destruct (Nat.eq_dec j n) as [->|N]; [exact E|]. apply (IH _ H); lia.
Qed.

(** A search with more fuel than there are taken names succeeds, when the
    numbers name different things and a busy number names a taken thing. *)
Lemma first_free_total {A : Type} (busy : nat -> bool) (f : nat -> A)
    (taken : list A) (fuel n : nat) :
  (forall i j, f i = f j -> i = j) ->
  (forall j, busy j = true -> In (f j) taken) ->
  List.length taken < fuel ->
  exists m, first_free busy fuel n = Some m.
Proof.
  intros Hinj Hbusy Hsize.
  destruct (first_free busy fuel n) as [m|] eqn:E; [now exists m|].
  exfalso. pose proof (first_free_none _ _ _ E) as Hall.
  assert (Hle : List.length (List.map f (List.seq n fuel)) <= List.length taken).
  { apply List.NoDup_incl_length.
    - assert (Hi : Inj (=) (=) f) by (intros i j; apply Hinj).
      apply NoDup_ListNoDup, (NoDup_fmap_2 f), NoDup_ListNoDup, List.seq_NoDup.
    - intros x Hx. apply in_map_iff in Hx as (j & <- & Hj). apply in_seq in Hj.
      apply Hbusy, Hall; lia. }
  rewrite length_map, length_seq in Hle. lia.
Qed.

(** ** Sanitized names *)

Lemma chars_of_app (a b : string) : chars_of (a +:+ b) = chars_of a ++ chars_of b.
Proof.
  unfold chars_of. induction a as [|c a IH]; simpl; [reflexivity|].
  now rewrite <- IH.
Qed.

Lemma text_app (a b : chars) : text (a ++ b) = text a +:+ text b.
Proof.
  rewrite <- (chars_of_text a) at 1. rewrite <- (chars_of_text b) at 1.
  now rewrite <- chars_of_app, text_chars_of.
Qed.


Lemma clean_app (a b : chars) : clean (a ++ b) = clean a ++ clean b.
Proof. unfold clean. now rewrite List.map_app, List.filter_app. Qed.

Lemma clean_kept (l : chars) : forallb kept l = true -> clean l = l.
Proof.
  unfold clean. induction l as [|c r IH]; simpl; [reflexivity|].
  intros H. apply andb_true_iff in H as [Hc Hr]. unfold kept in Hc.
  apply andb_true_iff in Hc as [H1 H2]. apply negb_true_iff in H2.
  rewrite H2. rewrite H1. f_equal. now apply IH.
Qed.

Lemma collapse_ws_app (b : bool) (u v : chars) (c : ascii) :
  is_space c = false ->
  collapse_ws b (u ++ c :: v) = collapse_ws b u ++ c :: collapse_ws false v.
Proof.
  intros Hc. revert b. induction u as [|x r IH]; intros b; simpl.
  - now rewrite Hc.
  - destruct (is_space x); [destruct b|]; simpl; now rewrite IH.
Qed.

Lemma collapse_ws_solid (b : bool) (l : chars) :
  forallb (fun c => negb (is_space c)) l = true -> collapse_ws b l = l.
Proof.
  revert b. induction l as [|c r IH]; intros b H; simpl; [reflexivity|].
  simpl in H. apply andb_true_iff in H as [Hc Hr]. apply negb_true_iff in Hc.
  rewrite Hc. f_equal. now apply IH.
Qed.

Lemma lstrip_app (p v : chars) (c : ascii) :
  is_space c = false -> lstrip (p ++ c :: v) = lstrip p ++ c :: v.
Proof.
  intros Hc. induction p as [|x r IH]; simpl.
  - now rewrite Hc.
  - destruct (is_space x); [exact IH|reflexivity].
Qed.

Lemma rstrip_last (q : chars) (c : ascii) :
  is_space c = false -> rstrip (q ++ [c]) = q ++ [c].
Proof.
  intros Hc. unfold rstrip. rewrite rev_app_distr. simpl. rewrite Hc.
  simpl. now rewrite rev_involutive.
Qed.

Lemma rstrip_dots_last (q : chars) (c : ascii) :
  ceqb c "." = false -> rstrip_dots (q ++ [c]) = q ++ [c].
Proof.
  intros Hc. unfold rstrip_dots. rewrite rev_app_distr. simpl. rewrite Hc.
  simpl. now rewrite rev_involutive.
Qed.

(** What [sanitize_filename] makes of a text that ends with two words,
    free of blanks and of characters to clean, the last one closed by a
    parenthesis: the tail is kept as it is. *)
Lemma sanitize_chars_tail (x w1 w2 : chars) (c1 : ascii) :
  is_space c1 = false -> kept c1 = true ->
  forallb (fun c => negb (is_space c) && kept c) w1 = true ->
  forallb (fun c => negb (is_space c) && kept c) w2 = true ->
  sanitize_chars (x ++ c1 :: w1 ++ " "%char :: w2 ++ [")"%char])
  = lstrip (collapse_ws false (clean x)) ++ c1 :: w1 ++ " "%char :: w2 ++ [")"%char].
Proof.
  intros Hs1 Hk1 H1 H2.
  assert (S1 : forallb (fun c => negb (is_space c)) w1 = true).
  { apply forallb_forall. intros c Hc.
    apply (proj1 (forallb_forall _ _) H1) in Hc. now apply andb_true_iff in Hc. }
  assert (S2 : forallb (fun c => negb (is_space c)) (w2 ++ [")"%char]) = true).
  { rewrite forallb_app. apply andb_true_iff. split; [|reflexivity].
    apply forallb_forall. intros c Hc.
    apply (proj1 (forallb_forall _ _) H2) in Hc. now apply andb_true_iff in Hc. }
  assert (K : forallb kept (c1 :: w1 ++ " "%char :: w2 ++ [")"%char]) = true).
  { simpl. rewrite Hk1. simpl. rewrite forallb_app. apply andb_true_iff. split.
    - apply forallb_forall. intros c Hc.
      apply (proj1 (forallb_forall _ _) H1) in Hc. now apply andb_true_iff in Hc.
    - simpl. rewrite forallb_app. apply andb_true_iff. split; [|reflexivity].
      apply forallb_forall. intros c Hc.
      apply (proj1 (forallb_forall _ _) H2) in Hc. now apply andb_true_iff in Hc. }
  unfold sanitize_chars. fold (clean (x ++ c1 :: w1 ++ " "%char :: w2 ++ [")"%char])).
  rewrite clean_app, (clean_kept _ K).
  rewrite (collapse_ws_app _ _ _ _ Hs1).
  assert (C : collapse_ws false (w1 ++ " "%char :: w2 ++ [")"%char])
              = w1 ++ " "%char :: w2 ++ [")"%char]).
  { clear -S1 S2. induction w1 as [|c r IH]; simpl.
    - f_equal. now apply collapse_ws_solid.
    - simpl in S1. apply andb_true_iff in S1 as [Hc Hr]. apply negb_true_iff in Hc.
      rewrite Hc. f_equal. now apply IH. }
  rewrite C. unfold strip. rewrite (lstrip_app _ _ _ Hs1).
  set (pre := lstrip (collapse_ws false (clean x))).
  replace (pre ++ c1 :: w1 ++ " "%char :: w2 ++ [")"%char])
    with ((pre ++ c1 :: w1 ++ " "%char :: w2) ++ [")"%char]).
  - rewrite rstrip_last by reflexivity. now rewrite rstrip_dots_last by reflexivity.
  - rewrite <- app_assoc. simpl. rewrite <- app_assoc. simpl. reflexivity.
Qed.

Lemma digits_solid (d : Decimal.uint) :
  forallb (fun c => negb (is_space c) && kept c)
    (chars_of (NilEmpty.string_of_uint d)) = true.
Proof.
  unfold chars_of. induction d; simpl; [reflexivity|..]; exact IHd.
Qed.

Lemma str_of_nat_inj (n m : nat) : str_of_nat n = str_of_nat m -> n = m.
Proof.
  unfold str_of_nat. intros H. apply DecimalNat.Unsigned.to_uint_inj.
  assert (E : Some (Nat.to_uint n) = Some (Nat.to_uint m)).
  { rewrite <- (NilEmpty.usu (Nat.to_uint n)), <- (NilEmpty.usu (Nat.to_uint m)).
    now rewrite H. }
  now injection E.
Qed.

Lemma chars_of_inj (a b : string) : chars_of a = chars_of b -> a = b.
Proof.
  intros H. rewrite <- (text_chars_of a), <- (text_chars_of b). now rewrite H.
Qed.

(** The variant names of a base name share a stem, made of the base name,
    and end with the number between the same words. *)
Lemma variant_name_shape (b : string) (n : nat) :
  variant_name b n
  = text (lstrip (collapse_ws false (clean (chars_of b ++ [" "%char]))))
    +:+ "(variant " +:+ str_of_nat n +:+ ")".
Proof.
  unfold variant_name, sanitize_filename.
  rewrite !chars_of_app.
  change (chars_of " (variant ")
    with ([" "%char] ++ "("%char :: chars_of "variant" ++ [" "%char]).
  change (chars_of ")") with [")"%char].
  replace (chars_of b ++
           ([" "%char] ++ "("%char :: chars_of "variant" ++ [" "%char]) ++
           chars_of (str_of_nat n) ++ [")"%char])
    with ((chars_of b ++ [" "%char]) ++
          "("%char :: chars_of "variant" ++ " "%char :: chars_of (str_of_nat n) ++ [")"%char]).
  - rewrite sanitize_chars_tail; [|reflexivity|reflexivity|reflexivity|apply digits_solid].
    rewrite text_app. f_equal.
    change ("("%char :: chars_of "variant" ++ " "%char :: chars_of (str_of_nat n) ++ [")"%char])
      with (chars_of "(variant " ++ chars_of (str_of_nat n) ++ [")"%char]).
    rewrite !text_app, !text_chars_of. reflexivity.
  - rewrite <- !app_assoc. simpl. reflexivity.
Qed.

Lemma variant_name_inj (b : string) (n m : nat) :
  variant_name b n = variant_name b m -> n = m.
Proof.
  rewrite !variant_name_shape. intros H.
  apply (inj (String.app _)) in H. apply (inj (String.app _)) in H.
  apply str_of_nat_inj, chars_of_inj.
  apply (f_equal chars_of) in H. rewrite !chars_of_app in H.
  now apply app_inv_tail in H.
Qed.

Lemma variant_name_nonempty (b : string) (n : nat) : variant_name b n <> "".
Proof.
  rewrite variant_name_shape. intros H. apply (f_equal chars_of) in H.
  rewrite !chars_of_app in H. apply app_eq_nil in H as [_ H]. discriminate.
Qed.

Lemma path_name_join (p : Path) (s : string) : s <> "" -> path_name (join p s) = s.
Proof.
  intros H. unfold join, path_name. rewrite decide_False by exact H.
  apply last_last.
Qed.

Lemma join_inj (p : Path) (s t : string) :
  s <> "" -> t <> "" -> join p s = join p t -> s = t.
Proof.
  intros Hs Ht H. rewrite <- (path_name_join p s Hs), <- (path_name_join p t Ht).
  now rewrite H.
Qed.

(** ** Numbered variants *)


Lemma taken_names_length (d : FS) (claims : gmap string string) :
  List.length (taken_names d claims) = entries_count d + size (dom claims).
Proof.
  unfold taken_names, entries_count. rewrite !length_app, !length_map.
  unfold size, set_size. simpl. lia.
Qed.

Lemma path_exists_taken (d : FS) (claims : gmap string string) (p : Path) :
  path_exists d p = true -> In (path_name p) (taken_names d claims).
Proof.
  unfold path_exists, is_dir, is_file, taken_names. intros H.
  apply orb_true_iff in H as [H|H]; apply bool_decide_eq_true in H.
  - apply in_app_iff. left. apply in_map. apply list_elem_of_In, elem_of_elements, H.
  - apply in_app_iff. right. apply in_app_iff. left. apply in_map.
    apply list_elem_of_In, elem_of_elements, elem_of_dom, H.
Qed.

Lemma variant_busy_taken (base_dir : Path) (b : string)
    (claims : gmap string string) (d : FS) (j : nat) :
  variant_busy base_dir b claims d j = true ->
  In (variant_name b j) (taken_names d claims).
Proof.
  unfold variant_busy. intros H. apply orb_true_iff in H as [H|H].
  - apply (path_exists_taken d claims) in H.
    now rewrite path_name_join in H by apply variant_name_nonempty.
  - unfold claimed in H. apply bool_decide_eq_true in H. unfold taken_names.
    apply in_app_iff. right. apply in_app_iff. right.
    apply list_elem_of_In, elem_of_elements, elem_of_dom, H.
Qed.

(** The loop of [choose_dest_dir] ends. *)
Lemma variant_search_ends (base_dir : Path) (b : string)
    (claims : gmap string string) (d : FS) :
  exists n, first_free (variant_busy base_dir b claims d)
              (S (entries_count d + size (dom claims))) 2 = Some n.
Proof.
  apply (first_free_total _ (variant_name b) (taken_names d claims)).
  - apply variant_name_inj.
  - apply variant_busy_taken.
  - rewrite taken_names_length. lia.
Qed.

(** The variant branch of [choose_dest_dir]. A base name that was not there
    before the run, is not on disk and is claimed by another deck is given
    the variant of the least number from 2 on whose name is neither on disk
    nor claimed; that folder is made, claimed for the deck, and the event is
    logged with the owner of the base name. *)
Theorem choose_dest_dir_variant
    (base_dir : Path) (base_name deck_key : string) (existing : gset string)
    (claims : gmap string string) (error_log : Path) (d : FS) (owner : string) :
  let b := sanitize_filename base_name in
  b ∉ existing ->
  path_exists d (join base_dir b) = false ->
  claims !! b = Some owner ->
  owner <> deck_key ->
  exists n,
    2 <= n
    /\ variant_busy base_dir b claims d n = false
    /\ (forall j, 2 <= j -> j < n -> variant_busy base_dir b claims d j = true)
    /\ choose_dest_dir base_dir base_name deck_key existing claims error_log d
       = (let! d1 := mkdir d (join base_dir (variant_name b n)) in
          let! d2 := log (variant_msg b owner (variant_name b n) deck_key)
                       error_log d1 in
          ret (join base_dir (variant_name b n),
               <[variant_name b n := deck_key]> claims, d2)).
Proof.
  intros b Hex Hdisk Hown Hne.
  destruct (variant_search_ends base_dir b claims d) as (n & Hn).
  destruct (first_free_some _ _ _ _ Hn) as (H2 & _ & Hfree & Hbusy).
  exists n. repeat split; [exact H2|exact Hfree|exact Hbusy|].
  unfold choose_dest_dir. fold b.
  rewrite bool_decide_eq_false_2 by exact Hex. rewrite Hdisk. cbn [orb].
  rewrite Hown. rewrite bool_decide_eq_false_2 by exact Hne.
  rewrite Hn.
  assert (Hvb : variant_name b n <> b).
  { intros E. unfold variant_busy in Hfree. apply orb_false_iff in Hfree as [_ Hc].
    unfold claimed in Hc. apply bool_decide_eq_false in Hc. apply Hc.
    rewrite E, Hown. eauto. }
  rewrite lookup_insert_ne by exact Hvb. rewrite Hown. reflexivity.
Qed.

Lemma choose_dest_dir_variant_witness :
  path_exists Scenario.empty_disk (join Scenario.out (sanitize_filename "Storm")) = false
  /\ (<["Storm" := "Deck A"]> ∅ : gmap string string) !! sanitize_filename "Storm"
     = Some "Deck A"
  /\ exists n,
       2 <= n
       /\ choose_dest_dir Scenario.out "Storm" "Deck B" ∅ (<["Storm" := "Deck A"]> ∅)
            Scenario.errors_txt Scenario.empty_disk
          = (let! d1 := mkdir Scenario.empty_disk
                          (join Scenario.out (variant_name (sanitize_filename "Storm") n)) in
             let! d2 := log (variant_msg (sanitize_filename "Storm") "Deck A"
                               (variant_name (sanitize_filename "Storm") n) "Deck B")
                          Scenario.errors_txt d1 in
             ret (join Scenario.out (variant_name (sanitize_filename "Storm") n),
                  <[variant_name (sanitize_filename "Storm") n := "Deck B"]>
                    (<["Storm" := "Deck A"]> ∅), d2)).
Proof.
  assert (H1 : path_exists Scenario.empty_disk
                 (join Scenario.out (sanitize_filename "Storm")) = false)
    by (vm_compute; reflexivity).
  assert (H2 : (<["Storm" := "Deck A"]> ∅ : gmap string string)
                 !! sanitize_filename "Storm" = Some "Deck A")
    by (vm_compute; reflexivity).
  split; [exact H1|]. split; [exact H2|].
  destruct (choose_dest_dir_variant Scenario.out "Storm" "Deck B" ∅
              (<["Storm" := "Deck A"]> ∅) Scenario.errors_txt Scenario.empty_disk
              "Deck A" (not_elem_of_empty _) H1 H2) as (n & Hn & _ & _ & E).
  - discriminate.
  - exists n. split; [exact Hn|exact E].
Defined.

(** In the layout of a run, with the base name gone from the disk, the
    second deck of the name is placed in the variant numbered 2. *)
Example storm_variant_when_folder_gone :
  option_map
    (fun r => (fst (fst r), snd (fst r), is_dir (snd r) (fst (fst r)),
               option_map appended (files (snd r) !! Scenario.errors_txt)))
    (outcome
       (choose_dest_dir Scenario.out "Storm" "Deck B" ∅ (<["Storm" := "Deck A"]> ∅)
          Scenario.errors_txt Scenario.empty_disk))
  = Some (["out"; "Storm (variant 2)"],
          <["Storm (variant 2)" := "Deck B"]> (<["Storm" := "Deck A"]> ∅),
          true,
          Some ["[VARIANT] 'Storm' already claimed by 'Deck A'. Created 'Storm (variant 2)' for 'Deck B'."]).
Proof. by_evaluation. Qed.

(** ** Keys and tokens *)

Ltac each_char c := destruct c as [[] [] [] [] [] [] [] []].

Lemma lower_char_idem (c : ascii) : lower_char (lower_char c) = lower_char c.
Proof. each_char c; reflexivity. Qed.

Lemma lower_char_key (c : ascii) : is_key_char c = true -> lower_char c = c.
Proof. each_char c; intros H; try reflexivity; discriminate H. Qed.

Lemma normalize_chars_app (a b : chars) :
  normalize_chars (a ++ b) = normalize_chars a ++ normalize_chars b.
Proof. unfold normalize_chars, lower. now rewrite List.map_app, List.filter_app. Qed.

Lemma normalize_chars_keys (l : chars) :
  List.forallb is_key_char l = true -> normalize_chars l = l.
Proof.
  unfold normalize_chars, lower. induction l as [|c r IH]; simpl; [reflexivity|].
  intros H. apply andb_true_iff in H as [Hc Hr].
  rewrite (lower_char_key c Hc), Hc. f_equal. now apply IH.
Qed.

Lemma normalize_chars_all_keys (l : chars) :
  List.forallb is_key_char (normalize_chars l) = true.
Proof.
  apply forallb_forall. intros c Hc. unfold normalize_chars in Hc.
  now apply filter_In in Hc as [_ Hc].
Qed.

(** [normalize_key] is idempotent, ignores case, and goes through
    concatenation. *)
Theorem normalize_key_stable (s t : string) :
  normalize_key (normalize_key s) = normalize_key s
  /\ normalize_key (str_lower s) = normalize_key s
  /\ normalize_key (s +:+ t) = normalize_key s +:+ normalize_key t.
Proof.
  unfold normalize_key, str_lower. rewrite !chars_of_text. repeat split.
  - f_equal. apply normalize_chars_keys, normalize_chars_all_keys.
  - f_equal. unfold normalize_chars, lower. rewrite List.map_map. f_equal.
    apply List.map_ext. intros c. apply lower_char_idem.
  - rewrite chars_of_app, normalize_chars_app. apply text_app.
Qed.

Lemma forallb_rev_keys (l : chars) :
  List.forallb is_key_char l = true -> List.forallb is_key_char (List.rev l) = true.
Proof.
  intros H. apply forallb_forall. intros c Hc. apply in_rev in Hc.
  now apply (proj1 (forallb_forall _ _) H).
Qed.

Lemma runs_concat (l cur : chars) :
  List.concat (runs cur l) = List.rev cur ++ List.filter is_key_char l.
Proof.
  revert cur. induction l as [|c r IH]; intros cur; simpl.
  - destruct cur; simpl; [reflexivity|]. now rewrite !app_nil_r.
  - destruct (is_key_char c) eqn:E.
    + rewrite IH. simpl. now rewrite <- app_assoc.
    + destruct cur as [|c0 cur0]; simpl; now rewrite IH.
Qed.

Lemma runs_tokens (l cur : chars) :
  List.forallb is_key_char cur = true ->
  Forall (fun t => t <> [] /\ List.forallb is_key_char t = true) (runs cur l).
Proof.
  revert cur. induction l as [|c r IH]; intros cur Hcur; simpl.
  - destruct cur as [|c0 cur0]; [constructor|]. constructor; [|constructor]. split.
    + simpl. intros E. apply app_eq_nil in E as [_ E]. discriminate.
    + now apply (forallb_rev_keys (c0 :: cur0)).
  - destruct (is_key_char c) eqn:E.
    + apply IH. simpl. now rewrite E.
    + destruct cur as [|c0 cur0]; [now apply IH|]. constructor; [|now apply IH]. split.
      * simpl. intros E0. apply app_eq_nil in E0 as [_ E0]. discriminate.
      * now apply (forallb_rev_keys (c0 :: cur0)).
Qed.

Lemma str_app_empty (s : string) : s +:+ "" = s.
Proof.
  induction s as [|c s IH]; [reflexivity|].
  change (String c (s +:+ "") = String c s). now rewrite IH.
Qed.

Lemma concat_texts (l : list chars) :
  String.concat "" (List.map text l) = text (List.concat l).
Proof.
  induction l as [|a r IH]; [reflexivity|].
  cbn [List.map List.concat]. rewrite text_app, <- IH.
  destruct r as [|b r']; [symmetry; apply str_app_empty|reflexivity].
Qed.

(** The tokens of a text are the non-empty runs of its key: glued
    together they give [normalize_key], and each one is its own key. *)
Theorem tokenize_normalize_key (s : string) :
  String.concat "" (tokenize s) = normalize_key s
  /\ Forall (fun t => t <> "" /\ normalize_key t = t) (tokenize s).
Proof.
  unfold tokenize, normalize_key, tokenize_chars. split.
  - rewrite concat_texts, runs_concat. reflexivity.
  - apply Forall_forall. intros t Ht. apply list_elem_of_In in Ht.
    apply in_map_iff in Ht as (l & <- & Hl).
    pose proof (runs_tokens (lower (chars_of s)) [] eq_refl) as Hall.
    apply (proj1 (List.Forall_forall _ _) Hall) in Hl as [Hne Hk]. split.
    + intros E. apply text_empty in E. contradiction.
    + rewrite chars_of_text. f_equal. now apply normalize_chars_keys.
Qed.

(** ** Pitch and back markers *)

Lemma first_paren_In (ws : list chars) (l w p : chars) :
  first_paren ws l = Some (w, p) -> In w ws.
Proof.
  induction ws as [|w0 r IH]; simpl; [discriminate|].
  destruct (before_paren w0 l); intros H.
  - injection H as <- _. now left.
  - right. now apply IH.
Qed.

Lemma rev_marked (n w : chars) :
  List.rev (n ++ " "%char :: "("%char :: w ++ [")"%char])
  = ")"%char :: List.rev w ++ "("%char :: " "%char :: List.rev n.
Proof.
  rewrite rev_app_distr. simpl. rewrite rev_app_distr. simpl.
  now rewrite <- !app_assoc.
Qed.

Lemma lower_rev (l : chars) : lower (List.rev l) = List.rev (lower l).
Proof. unfold lower. apply List.map_rev. Qed.

Lemma lower_length (l : chars) : List.length (lower l) = List.length l.
Proof. unfold lower. apply length_map. Qed.

(** The test of one word against a text that ends with a marker. *)
Lemma before_paren_marked (w0 n w : chars) :
  before_paren w0 (n ++ " "%char :: "("%char :: w ++ [")"%char])
  = if starts_with (List.rev w0 ++ ["("%char])
         (List.rev (lower w) ++ "("%char :: " "%char :: lower (List.rev n))
    then Some (List.rev
                 (List.skipn (List.length (List.rev w0 ++ ["("%char]))
                    (List.rev w ++ "("%char :: " "%char :: List.rev n)))
    else None.
Proof.
  unfold before_paren. rewrite rev_marked.
  change (lstrip (")"%char :: List.rev w ++ "("%char :: " "%char :: List.rev n))
    with (")"%char :: List.rev w ++ "("%char :: " "%char :: List.rev n).
  unfold lower at 1. cbn [List.map]. fold (lower (List.rev w ++ "("%char :: " "%char :: List.rev n)).
  unfold lower at 1. rewrite List.map_app. cbn [List.map].
  fold (lower (List.rev w)). fold (lower (List.rev n)). rewrite lower_rev.
  reflexivity.
Qed.

Lemma starts_with_app (p l : chars) : starts_with p (p ++ l) = true.
Proof.
  induction p as [|c r IH]; simpl; [reflexivity|].
  unfold ceqb. now rewrite Ascii.eqb_refl.
Qed.

Lemma before_paren_hit (n w : chars) :
  before_paren (lower w) (n ++ " "%char :: "("%char :: w ++ [")"%char])
  = Some (n ++ [" "%char]).
Proof.
  rewrite before_paren_marked.
  replace (List.rev (lower w) ++ "("%char :: " "%char :: lower (List.rev n))
    with ((List.rev (lower w) ++ ["("%char]) ++ " "%char :: lower (List.rev n))
    by now rewrite <- app_assoc.
  rewrite starts_with_app.
  replace (List.rev w ++ "("%char :: " "%char :: List.rev n)
    with ((List.rev w ++ ["("%char]) ++ " "%char :: List.rev n)
    by now rewrite <- app_assoc.
  rewrite List.skipn_app.
  assert (E : List.length (List.rev (lower w) ++ ["("%char])
              = List.length (List.rev w ++ ["("%char])).
  { rewrite !length_app, !length_rev, lower_length. reflexivity. }
  rewrite E, List.skipn_all, Nat.sub_diag. simpl. now rewrite rev_involutive.
Qed.

Lemma before_paren_miss (w0 n w : chars) :
  starts_with (List.rev w0 ++ ["("%char])
    (List.rev (lower w) ++ "("%char :: " "%char :: lower (List.rev n)) = false ->
  before_paren w0 (n ++ " "%char :: "("%char :: w ++ [")"%char]) = None.
Proof. intros H. now rewrite before_paren_marked, H. Qed.

Lemma first_paren_pitch (n w : chars) :
  In (lower w) pitch_words ->
  first_paren pitch_words (n ++ " "%char :: "("%char :: w ++ [")"%char])
  = Some (lower w, n ++ [" "%char]).
Proof.
  intros H. unfold pitch_words in *. cbn [List.map] in *.
  destruct H as [H|[H|[H|[H|[H|[]]]]]]; cbn [first_paren];
    rewrite ?(before_paren_miss _ n w) by (rewrite <- H; reflexivity);
    rewrite H at 1; rewrite before_paren_hit; rewrite <- H; reflexivity.
Qed.

Lemma rstrip_snoc_space (q : chars) (c : ascii) :
  is_space c = true -> rstrip (q ++ [c]) = rstrip q.
Proof.
  intros Hc. unfold rstrip. rewrite rev_app_distr. simpl. now rewrite Hc.
Qed.

Lemma rstrip_cons (c : ascii) (r : chars) :
  is_space c = false -> rstrip (c :: r) = c :: rstrip r.
Proof.
  intros Hc. unfold rstrip. simpl.
  replace (List.rev r ++ [c]) with (List.rev r ++ c :: []) by reflexivity.
  rewrite (lstrip_app _ _ _ Hc), rev_app_distr. reflexivity.
Qed.

Lemma lstrip_head (l : chars) :
  lstrip l = [] \/ exists c r, lstrip l = c :: r /\ is_space c = false.
Proof.
  induction l as [|c r IH]; simpl; [now left|].
  destruct (is_space c) eqn:E; [exact IH|]. right. now exists c, r.
Qed.

Lemma lstrip_idem (l : chars) : lstrip (lstrip l) = lstrip l.
Proof.
  destruct (lstrip_head l) as [->|(c & r & -> & Hc)]; [reflexivity|].
  simpl. now rewrite Hc.
Qed.

Lemma rstrip_idem (l : chars) : rstrip (rstrip l) = rstrip l.
Proof. unfold rstrip. now rewrite rev_involutive, lstrip_idem. Qed.

Lemma strip_idem (l : chars) : strip (strip l) = strip l.
Proof.
  unfold strip. destruct (lstrip_head l) as [->|(c & r & -> & Hc)]; [reflexivity|].
  rewrite (rstrip_cons c r Hc). simpl. rewrite Hc.
  rewrite (rstrip_cons c _ Hc). now rewrite rstrip_idem.
Qed.

Lemma strip_snoc_space (n : chars) (c : ascii) :
  is_space c = true -> strip (n ++ [c]) = strip n.
Proof.
  intros Hc. unfold strip. induction n as [|x r IH]; simpl.
  - now rewrite Hc.
  - destruct (is_space x); [exact IH|].
    now rewrite app_comm_cons, rstrip_snoc_space.
Qed.

Lemma chars_marked (name w : string) :
  chars_of (name +:+ " (" +:+ w +:+ ")")
  = chars_of name ++ " "%char :: "("%char :: chars_of w ++ [")"%char].
Proof. rewrite !chars_of_app. reflexivity. Qed.

Lemma pitch_marked (name w : string) :
  In (str_lower w) ["red"; "yellow"; "blue"; "yel"; "blu"] ->
  extract_pitch (name +:+ " (" +:+ w +:+ ")")
    = Some (text (canonical_pitch (lower (chars_of w))))
  /\ strip_pitch_suffix (name +:+ " (" +:+ w +:+ ")") = str_strip name.
Proof.
  intros H.
  assert (Hw : In (lower (chars_of w)) pitch_words).
  { unfold pitch_words. apply (in_map chars_of) in H.
    unfold str_lower in H. now rewrite chars_of_text in H. }
  unfold extract_pitch, strip_pitch_suffix, extract_pitch_chars, strip_paren_suffix.
  rewrite chars_marked, (first_paren_pitch _ _ Hw). split; [reflexivity|].
  unfold str_strip. f_equal. now apply strip_snoc_space.
Qed.

(** A name followed by a blank and a colour in parentheses, in any case,
    has that colour as its pitch, in canonical form, and loses exactly the
    marker and the blanks around the name when the pitch is stripped. *)
Theorem pitch_round_trip (name w : string) :
  In (str_lower w) ["red"; "yellow"; "blue"; "yel"; "blu"] ->
  extract_pitch (name +:+ " (" +:+ w +:+ ")")
    = Some (text (canonical_pitch (lower (chars_of w))))
  /\ strip_pitch_suffix (name +:+ " (" +:+ w +:+ ")") = str_strip name.
Proof.
  intros H.
  assert (Hw : In (lower (chars_of w)) pitch_words).
  { unfold pitch_words. apply (in_map chars_of) in H.
    unfold str_lower in H. now rewrite chars_of_text in H. }
  unfold extract_pitch, strip_pitch_suffix, extract_pitch_chars, strip_paren_suffix.
  rewrite chars_marked, (first_paren_pitch _ _ Hw). split; [reflexivity|].
  unfold str_strip. f_equal. now apply strip_snoc_space.
Qed.

Lemma pitch_round_trip_witness :
  In (str_lower "Red") ["red"; "yellow"; "blue"; "yel"; "blu"]
  /\ extract_pitch ("Bounding Strike" +:+ " (" +:+ "Red" +:+ ")") = Some "red"
  /\ strip_pitch_suffix ("Bounding Strike" +:+ " (" +:+ "Red" +:+ ")")
     = "Bounding Strike".
Proof.
  assert (H : In (str_lower "Red") ["red"; "yellow"; "blue"; "yel"; "blu"])
    by (left; reflexivity).
  split; [exact H|]. exact (pitch_round_trip "Bounding Strike" "Red" H).
Defined.

Lemma extract_pitch_colour (s : string) :
  match extract_pitch s with
  | Some c => c = "red" \/ c = "yellow" \/ c = "blue"
  | None => True
  end.
Proof.
  unfold extract_pitch, extract_pitch_chars.
  destruct (first_paren pitch_words (chars_of s)) as [[w p]|] eqn:E; [|exact I].
  apply first_paren_In in E. unfold pitch_words in E. simpl in E.
  destruct E as [<-|[<-|[<-|[<-|[<-|[]]]]]]; simpl; auto.
Qed.

(** The pitch is one of the three colours, whatever the text. *)
Theorem extract_pitch_canonical (s : string) :
  match extract_pitch s with
  | Some c => c = "red" \/ c = "yellow" \/ c = "blue"
  | None => True
  end.
Proof.
  unfold extract_pitch, extract_pitch_chars.
  destruct (first_paren pitch_words (chars_of s)) as [[w p]|] eqn:E; [|exact I].
  apply first_paren_In in E. unfold pitch_words in E. simpl in E.
  destruct E as [<-|[<-|[<-|[<-|[<-|[]]]]]]; simpl; auto.
Qed.

(** A name followed by the back marker, in any case, loses exactly the
    marker and the blanks around the name. *)
Theorem back_round_trip (name w : string) :
  str_lower w = "back" ->
  strip_back_suffix (name +:+ " (" +:+ w +:+ ")") = str_strip name.
Proof.
  intros H. unfold strip_back_suffix, strip_paren_suffix, first_paren.
  rewrite chars_marked.
  assert (Hw : chars_of "back" = lower (chars_of w)).
  { rewrite <- H. unfold str_lower. now rewrite chars_of_text. }
  rewrite Hw, before_paren_hit. unfold str_strip. f_equal.
  now apply strip_snoc_space.
Qed.

Lemma back_round_trip_witness :
  str_lower "Back" = "back"
  /\ strip_back_suffix ("Ember's Call" +:+ " (" +:+ "Back" +:+ ")") = "Ember's Call".
Proof.
  split; [reflexivity|]. exact (back_round_trip "Ember's Call" "Back" eq_refl).
Defined.

(** ** Parsed card names *)

Lemma strip_paren_suffix_stripped (ws : list chars) (l : chars) :
  strip (strip_paren_suffix ws l) = strip_paren_suffix ws l.
Proof.
  unfold strip_paren_suffix. destruct (first_paren ws l) as [[w p]|]; apply strip_idem.
Qed.

(** A parsed card name is in canonical form: when it carries a pitch, the
    pitch is one of the three colours in lower case, written after the bare
    name and one blank, so that parsing the name again changes nothing. *)
Theorem card_entry_canonical (ln : string) (qty : nat) (nm : string) :
  card_entry ln = Some (qty, nm) ->
  match extract_pitch nm with
  | Some c =>
      (c = "red" \/ c = "yellow" \/ c = "blue")
      /\ nm = strip_pitch_suffix nm +:+ " (" +:+ c +:+ ")"
  | None => True
  end.
Proof.
  unfold card_entry. destruct (count_x_name ln) as [[cnt nm0]|]; [|discriminate].
  pose proof (extract_pitch_colour nm0) as Hc.
  destruct (extract_pitch nm0) as [c|] eqn:E; intros H; injection H as <- <-.
  - assert (Hin : In (str_lower c) ["red"; "yellow"; "blue"; "yel"; "blu"]).
    { destruct Hc as [-> | [-> | ->]]; simpl; auto. }
    destruct (pitch_marked (strip_pitch_suffix nm0) c Hin) as [H1 H2].
    rewrite H1.
    assert (Hcan : text (canonical_pitch (lower (chars_of c))) = c).
    { destruct Hc as [-> | [-> | ->]]; reflexivity. }
    rewrite Hcan. split; [exact Hc|]. rewrite H2.
    unfold str_strip, strip_pitch_suffix. rewrite chars_of_text.
    now rewrite strip_paren_suffix_stripped.
  - rewrite E. exact I.
Qed.

Lemma card_entry_canonical_witness :
  card_entry "2x Ember's Call (Red)" = Some (2, "Ember's Call (red)")
  /\ match extract_pitch "Ember's Call (red)" with
     | Some c =>
         (c = "red" \/ c = "yellow" \/ c = "blue")
         /\ "Ember's Call (red)"
            = strip_pitch_suffix "Ember's Call (red)" +:+ " (" +:+ c +:+ ")"
     | None => True
     end.
Proof.
  assert (H : card_entry "2x Ember's Call (Red)" = Some (2, "Ember's Call (red)"))
    by (vm_compute; reflexivity).
  split; [exact H|]. exact (card_entry_canonical _ _ _ H).
Defined.

(** ** Sanitized file names *)

Lemma drop_dots_head (l : chars) :
  drop_dots l = [] \/ exists c r, drop_dots l = c :: r /\ ceqb c "." = false.
Proof.
  induction l as [|c r IH]; simpl; [now left|].
  destruct (ceqb c ".") eqn:E; [exact IH|]. right. now exists c, r.
Qed.

Lemma drop_dots_In (l : chars) (c : ascii) : In c (drop_dots l) -> In c l.
Proof.
  induction l as [|x r IH]; simpl; [auto|].
  destruct (ceqb x "."); [intros H; right; now apply IH|auto].
Qed.

Lemma lstrip_In (l : chars) (c : ascii) : In c (lstrip l) -> In c l.
Proof.
  induction l as [|x r IH]; simpl; [auto|].
  destruct (is_space x); [intros H; right; now apply IH|auto].
Qed.

Lemma rstrip_In (l : chars) (c : ascii) : In c (rstrip l) -> In c l.
Proof.
  unfold rstrip. intros H. apply in_rev in H. apply lstrip_In in H.
  now apply in_rev in H.
Qed.

Lemma rstrip_dots_In (l : chars) (c : ascii) : In c (rstrip_dots l) -> In c l.
Proof.
  unfold rstrip_dots. intros H. apply in_rev in H. apply drop_dots_In in H.
  now apply in_rev in H.
Qed.

Lemma collapse_ws_In (l : chars) (b : bool) (c : ascii) :
  In c (collapse_ws b l) -> c = " "%char \/ In c l.
Proof.
  revert b. induction l as [|x r IH]; intros b; simpl; [auto|].
  destruct (is_space x).
  - destruct b; simpl.
    + intros H. destruct (IH _ H); auto.
    + intros [<-|H]; [auto|]. destruct (IH _ H); auto.
  - simpl. intros [<-|H]; [auto|]. destruct (IH _ H); auto.
Qed.

Lemma collapse_ws_blank (l : chars) (b : bool) (c : ascii) :
  In c (collapse_ws b l) -> is_space c = true -> c = " "%char.
Proof.
  revert b. induction l as [|x r IH]; intros b; simpl; [contradiction|].
  destruct (is_space x) eqn:E.
  - destruct b; simpl.
    + apply IH.
    + intros [<-|H]; [reflexivity|]. now apply (IH true).
  - simpl. intros [<-|H] Hc; [congruence|]. now apply (IH false).
Qed.

Lemma rstrip_dots_prefix (l : chars) : exists t, l = rstrip_dots l ++ t.
Proof.
  unfold rstrip_dots.
  assert (H : forall r, exists t, List.rev r = List.rev (drop_dots r) ++ t).
  { induction r as [|x r IH]; simpl; [now exists []|].
    destruct (ceqb x ".").
    - destruct IH as (t & Ht). exists (t ++ [x]). rewrite app_assoc. now f_equal.
    - exists []. now rewrite app_nil_r. }
  destruct (H (List.rev l)) as (t & Ht). exists t. now rewrite rev_involutive in Ht.
Qed.

Lemma rstrip_prefix (l : chars) : exists t, l = rstrip l ++ t.
Proof.
  unfold rstrip.
  assert (H : forall r, exists t, List.rev r = List.rev (lstrip r) ++ t).
  { induction r as [|x r IH]; simpl; [now exists []|].
    destruct (is_space x).
    - destruct IH as (t & Ht). exists (t ++ [x]). rewrite app_assoc. now f_equal.
    - exists []. now rewrite app_nil_r. }
  destruct (H (List.rev l)) as (t & Ht). exists t. now rewrite rev_involutive in Ht.
Qed.

Lemma sanitize_filename_shape (name : string) :
  Forall (fun c => is_illegal c = false /\ (is_space c = true -> c = " "%char))
    (chars_of (sanitize_filename name))
  /\ (forall c r, chars_of (sanitize_filename name) = c :: r -> is_space c = false)
  /\ endswith (sanitize_filename name) "." = false.
Proof.
  unfold sanitize_filename. rewrite chars_of_text. unfold sanitize_chars.
  set (l2 := List.filter (fun c => negb (is_illegal c))
               (List.map (fun c => if ceqb c ":" then "_"%char else c) (chars_of name))).
  split; [|split].
  - apply Forall_forall. intros c Hc. apply list_elem_of_In in Hc.
    apply rstrip_dots_In, rstrip_In, lstrip_In in Hc. split.
    + apply collapse_ws_In in Hc as [->|Hc]; [reflexivity|].
      unfold l2 in Hc. apply filter_In in Hc as [_ Hc]. now apply negb_true_iff in Hc.
    + now apply (collapse_ws_blank l2 false).
  - intros c r E.
    destruct (rstrip_dots_prefix (strip (collapse_ws false l2))) as (t1 & H1).
    rewrite E in H1. unfold strip in H1.
    destruct (rstrip_prefix (lstrip (collapse_ws false l2))) as (t2 & H2).
    rewrite H1 in H2. simpl in H2.
    destruct (lstrip_head (collapse_ws false l2)) as [H0|(c0 & r0 & H0 & Hc0)];
      rewrite H0 in H2; [discriminate|]. now injection H2 as -> _.
  - unfold endswith, ends_with. rewrite chars_of_text. unfold rstrip_dots.
    rewrite rev_involutive. simpl.
    destruct (drop_dots_head (List.rev (strip (collapse_ws false l2))))
      as [->|(c & r & -> & Hc)]; [reflexivity|].
    change (ceqb "."%char c && true = false).
    destruct (ceqb "."%char c) eqn:E2; [|reflexivity].
    apply Ascii.eqb_eq in E2. subst c. discriminate Hc.
Qed.

(** A sanitized name has none of the characters the loop removes, so it is
    a single path component; its whitespace is made of plain blanks; it
    does not start with a blank and does not end with a period. *)
Theorem sanitize_filename_clean (name : string) :
  Forall (fun c => is_illegal c = false /\ (is_space c = true -> c = " "%char))
    (chars_of (sanitize_filename name))
  /\ (forall c r, chars_of (sanitize_filename name) = c :: r -> is_space c = false)
  /\ endswith (sanitize_filename name) "." = false.
Proof.
  unfold sanitize_filename. rewrite chars_of_text. unfold sanitize_chars.
  set (l2 := List.filter (fun c => negb (is_illegal c))
               (List.map (fun c => if ceqb c ":" then "_"%char else c) (chars_of name))).
  split; [|split].
  - apply Forall_forall. intros c Hc. apply list_elem_of_In in Hc.
    apply rstrip_dots_In, rstrip_In, lstrip_In in Hc. split.
    + apply collapse_ws_In in Hc as [->|Hc]; [reflexivity|].
      unfold l2 in Hc. apply filter_In in Hc as [_ Hc]. now apply negb_true_iff in Hc.
    + now apply (collapse_ws_blank l2 false).
  - intros c r E.
    destruct (rstrip_dots_prefix (strip (collapse_ws false l2))) as (t1 & H1).
    rewrite E in H1. unfold strip in H1.
    destruct (rstrip_prefix (lstrip (collapse_ws false l2))) as (t2 & H2).
    rewrite H1 in H2. simpl in H2.
    destruct (lstrip_head (collapse_ws false l2)) as [H0|(c0 & r0 & H0 & Hc0)];
      rewrite H0 in H2; [discriminate|]. now injection H2 as -> _.
  - unfold endswith, ends_with. rewrite chars_of_text. unfold rstrip_dots.
    rewrite rev_involutive. simpl.
    destruct (drop_dots_head (List.rev (strip (collapse_ws false l2))))
      as [->|(c & r & -> & Hc)]; [reflexivity|].
    change (ceqb "."%char c && true = false).
    destruct (ceqb "."%char c) eqn:E2; [|reflexivity].
    apply Ascii.eqb_eq in E2. subst c. discriminate Hc.
Qed.

(** ** Completeness of the index *)

Lemma index_keys_add (key : string) (p : Path) (ix : Index) :
  index_keys (index_add key p ix)
  = if bool_decide (key ∈ index_keys ix) then index_keys ix
    else index_keys ix ++ [key].
Proof.
  unfold index_keys. induction ix as [|[k ps] r IH]; cbn [index_add List.map fst].
  - rewrite bool_decide_eq_false_2; [reflexivity|]. apply not_elem_of_nil.
  - destruct (decide (k = key)) as [->|N]; cbn [List.map fst].
    + rewrite bool_decide_eq_true_2; [reflexivity|]. apply list_elem_of_here.
    + rewrite IH. destruct (bool_decide (key ∈ List.map fst r)) eqn:E.
      * apply bool_decide_eq_true in E. rewrite bool_decide_eq_true_2; [reflexivity|].
        now apply list_elem_of_further.
      * apply bool_decide_eq_false in E. rewrite bool_decide_eq_false_2; [reflexivity|].
        intros H. apply elem_of_cons in H as [H|H]; [congruence|contradiction].
Qed.

Lemma index_keys_fold (l : list Path) (ix : Index) :
  List.NoDup (index_keys ix) -> List.NoDup (index_keys (List.fold_left index_step l ix)).
Proof.
  revert ix. induction l as [|p r IH]; intros ix H; simpl; [exact H|].
  apply IH. unfold index_step. destruct (decide _); [exact H|].
  rewrite index_keys_add. destruct (bool_decide _) eqn:E; [exact H|].
  apply bool_decide_eq_false in E.
  apply List.NoDup_rev in H. rewrite <- (rev_involutive (_ ++ _)).
  apply List.NoDup_rev. rewrite rev_app_distr. simpl. constructor; [|exact H].
  intros Hin. apply E. apply list_elem_of_In. now apply in_rev.
Qed.

(** The index files every scanned file that has a key, under that key and
    under no other, and no key comes twice. *)
Theorem index_library_complete
    (lib : Library) (exts : list string) (error_log : Path) (d : FS)
    (index : Index) (catalog : list Path) (d1 : FS) :
  lib_exists lib = true ->
  index_library lib exts error_log d = inr (index, catalog, d1) ->
  List.NoDup (index_keys index)
  /\ forall p, In p (scan lib exts) -> key_of p <> "" ->
       exists bucket,
         index_get index (key_of p) = Some bucket /\ In p bucket
         /\ forall k other, index_get index k = Some other -> In p other ->
              k = key_of p.
Proof.
  intros He H. destruct (index_library_built _ _ _ _ _ _ _ He H) as (_ & _ & Hix).
  pose proof (index_library_keyed _ _ _ _ _ _ _ H) as Hkeyed. split.
  - rewrite Hix. unfold index_keys. rewrite List.map_map. cbn [fst].
    apply (index_keys_fold _ []). constructor.
  - intros p Hp Hk.
    assert (Hin : In p (with_key (key_of p) (scan lib exts))).
    { unfold with_key. apply filter_In. split; [exact Hp|].
      now apply bool_decide_eq_true. }
    exists (sort_paths (key_leb (ext_order exts)) (with_key (key_of p) (scan lib exts))).
    split; [|split].
    + rewrite Hix, index_get_map, (index_get_fold _ _ _ Hk). simpl.
      destruct (with_key (key_of p) (scan lib exts)); [contradiction|reflexivity].
    + eapply Permutation_in; [symmetry; apply sort_paths_perm|exact Hin].
    + intros k other Hget Hother. apply index_get_In in Hget.
      destruct (Hkeyed _ _ Hget) as (_ & _ & Hall). symmetry. now apply Hall.
Qed.

Lemma index_library_complete_witness :
  lib_exists Scenario.card_lib = true
  /\ List.NoDup (index_keys (fst (Scenario.built Scenario.card_lib [".png"; ".jpg"]))).
Proof.
  split; [reflexivity|].
  refine (proj1 (index_library_complete Scenario.card_lib [".png"; ".jpg"]
                   Scenario.errors_txt Scenario.empty_disk _
                   (snd (Scenario.built Scenario.card_lib [".png"; ".jpg"]))
                   Scenario.empty_disk eq_refl _)).
  vm_compute. reflexivity.
Defined.

(** ** Where candidates come from *)

Lemma buckets_of_related (ix : Index) (ks : list string) (q : Path)
    (P : string -> Prop) :
  (forall k, In k ks -> P k) ->
  In q (buckets_of ix ks) ->
  exists k bucket, In (k, bucket) ix /\ In q bucket /\ P k.
Proof.
  intros HP H. unfold buckets_of in H. apply in_concat in H as (ps & Hps & Hq).
  apply in_map_iff in Hps as (k & E & Hk).
  destruct (index_get ix k) as [ps0|] eqn:G; simpl in E; subst ps; [|contradiction].
  exists k, ps0. split; [now apply index_get_In|]. split; [exact Hq|now apply HP].
Qed.

(** A match that is not exact is fuzzy by prefix only: every candidate is
    filed under a key that starts with the key of the requested name,
    stripped of its pitch and back markers, or that starts it. *)
Theorem best_match_fuzzy_by_prefix
    (card_name : string) (index : Index) (pick : option Path)
    (candidates : list Path) :
  best_match card_name index = inr (pick, candidates, false) ->
  forall q, In q candidates ->
    exists k bucket,
      In (k, bucket) index /\ In q bucket
      /\ (related k (normalize_key
                       (match extract_pitch card_name with
                        | Some _ => strip_pitch_suffix card_name
                        | None => card_name
                        end)) = true
          \/ related k (normalize_key (bare_name card_name)) = true).
Proof.
  unfold best_match.
  destruct (index_get index (normalize_key card_name)) as [bucket|] eqn:E.
  - destruct bucket; discriminate.
  - match goal with
    | |- context [match ?c with [] => _ | _ :: _ => _ end] =>
        destruct c as [|p ps] eqn:Ec
    end.
    + match goal with
      | |- context [match ?c with [] => _ | _ :: _ => _ end] =>
          destruct c as [|p ps] eqn:El
      end.
      * intros H. injection H as <- <-. contradiction.
      * intros H q Hq. injection H as <- <-. rewrite <- El in Hq.
        apply in_concat in Hq as (l & Hl & Hq).
        apply in_map_iff in Hl as ([k v] & Ekv & Hin). cbn [fst snd] in Ekv.
        destruct (_ && _) eqn:Hc in Ekv; subst l; [|contradiction].
        apply andb_true_iff in Hc as [_ Hc]. exists k, v. auto.
    + intros H q Hq. injection H as <- <-. rewrite <- Ec in Hq.
      apply pitch_filter_In in Hq.
      eapply buckets_of_related in Hq.
      * destruct Hq as (k & b & H1 & H2 & H3). exists k, b. split; [exact H1|].
        split; [exact H2|]. left. exact H3.
      * intros k Hk. simpl. apply filter_In in Hk as [_ Hk]. exact Hk.
Qed.

Lemma best_match_fuzzy_by_prefix_witness :
  best_match "Heavy" [("heavyblowred", [["lib"; "Heavy Blow (Red).png"]])]
    = inr (Some ["lib"; "Heavy Blow (Red).png"], [["lib"; "Heavy Blow (Red).png"]], false)
  /\ exists k bucket,
       In (k, bucket) [("heavyblowred", [["lib"; "Heavy Blow (Red).png"]])]
       /\ In ["lib"; "Heavy Blow (Red).png"] bucket
       /\ (related k (normalize_key "Heavy") = true
           \/ related k (normalize_key (bare_name "Heavy")) = true).
Proof.
  assert (H : best_match "Heavy" [("heavyblowred", [["lib"; "Heavy Blow (Red).png"]])]
              = inr (Some ["lib"; "Heavy Blow (Red).png"],
                     [["lib"; "Heavy Blow (Red).png"]], false))
    by (vm_compute; reflexivity).
  split; [exact H|].
  exact (best_match_fuzzy_by_prefix _ _ _ _ H ["lib"; "Heavy Blow (Red).png"]
           (or_introl eq_refl)).
Defined.

(** ** Resolved backs *)

Lemma dedup_backs_fresh (l : list Path) (seen : gset (string * string)) :
  List.NoDup (List.map dedup_key (dedup_backs seen l))
  /\ forall q, In q (dedup_backs seen l) -> dedup_key q ∉ seen.
Proof.
  revert seen. induction l as [|p r IH]; intros seen; simpl.
  - split; [constructor|contradiction].
  - destruct (bool_decide (dedup_key p ∈ seen)) eqn:E; [apply IH|].
    apply bool_decide_eq_false in E.
    destruct (IH ({[dedup_key p]} ∪ seen)) as [Hnd Hfresh]. split.
    + simpl. constructor; [|exact Hnd]. intros Hin.
      apply in_map_iff in Hin as (q & Hq & Hin). apply Hfresh in Hin.
      apply Hin. rewrite Hq. apply elem_of_union_l, elem_of_singleton. reflexivity.
    + intros q [<-|Hq]; [exact E|]. apply Hfresh in Hq. intros Hs. apply Hq.
      now apply elem_of_union_r.
Qed.

Lemma dedup_backs_complete (l : list Path) (seen : gset (string * string)) (p : Path) :
  In p l -> dedup_key p ∉ seen ->
  exists q, In q (dedup_backs seen l) /\ dedup_key q = dedup_key p.
Proof.
  revert seen. induction l as [|x r IH]; intros seen Hin Hs; [contradiction|].
  simpl. destruct (bool_decide (dedup_key x ∈ seen)) eqn:E.
  - apply bool_decide_eq_true in E. destruct Hin as [->|Hin]; [contradiction|].
    now apply IH.
  - destruct Hin as [->|Hin]; [exists p; split; [now left|reflexivity]|].
    destruct (decide (dedup_key p = dedup_key x)) as [Ek|Nk].
    + exists x. split; [now left|now symmetry].
    + destruct (IH ({[dedup_key x]} ∪ seen) Hin) as (q & Hq & Ekq).
      * intros Hu. apply elem_of_union in Hu as [Hu|Hu]; [|contradiction].
        apply elem_of_singleton in Hu. contradiction.
      * exists q. split; [now right|exact Ekq].
Qed.

(** The resolved backs hold no two files of one stem and one extension, the
    extension compared without case, and lose no stem and extension of the
    strategy that produced them. *)
Theorem resolve_backs_distinct
    (front_card : string) (src : Path) (index : Index) (catalog : list Path)
    (m : gmap string string) :
  List.NoDup (List.map dedup_key (resolve_backs front_card src index catalog m))
  /\ forall l, resolve_backs front_card src index catalog m = dedup_backs ∅ l ->
       forall p, In p l ->
         exists q, In q (resolve_backs front_card src index catalog m)
                   /\ dedup_key q = dedup_key p.
Proof.
  split.
  - unfold resolve_backs. apply dedup_backs_fresh.
  - intros l -> p Hp. apply dedup_backs_complete; [exact Hp|apply not_elem_of_empty].
Qed.

(** The keyword strategy has no guard on the tokens: for a front card whose
    bare name has no letter and no digit, and that has no explicit back and
    no override, every catalog file with the word back in its stem is
    resolved as a back. *)
Theorem resolve_backs_without_tokens
    (front_card : string) (src : Path) (index : Index) (catalog : list Path)
    (m : gmap string string) :
  token_set (bare_name front_card) = ∅ ->
  explicit_backs front_card src index = [] ->
  override_backs [front_card; bare_name front_card] index m = [] ->
  resolve_backs front_card src index catalog m
  = dedup_backs ∅
      (List.filter
         (fun p => contains (chars_of "back") (chars_of (str_lower (path_stem p))))
         catalog).
Proof.
  intros Ht He Ho. unfold resolve_backs. rewrite He, Ho. cbn [orelse].
  unfold paren_backs. rewrite Ht. rewrite bool_decide_eq_true_2 by reflexivity.
  cbn [orelse]. f_equal. unfold keyword_backs. rewrite Ht.
  apply List.filter_ext. intros p.
  rewrite bool_decide_eq_true_2; [apply andb_true_r|]. apply empty_subseteq.
Qed.

Lemma resolve_backs_without_tokens_witness :
  token_set (bare_name "???") = ∅
  /\ resolve_backs "???" ["lib"; "x.png"] []
       [["lib"; "Card Back.png"]; ["lib"; "Zed (Back).png"]; ["lib"; "Foo.png"]] ∅
     = dedup_backs ∅
         (List.filter
            (fun p => contains (chars_of "back") (chars_of (str_lower (path_stem p))))
            [["lib"; "Card Back.png"]; ["lib"; "Zed (Back).png"]; ["lib"; "Foo.png"]]).
Proof.
  assert (H : token_set (bare_name "???") = ∅) by (vm_compute; reflexivity).
  split; [exact H|].
  apply (resolve_backs_without_tokens "???" ["lib"; "x.png"] [] _ ∅ H); reflexivity.
Defined.

(** ** A missing library *)

Lemma buckets_of_empty (ks : list string) : buckets_of [] ks = [].
Proof. unfold buckets_of. induction ks as [|k r IH]; simpl; auto. Qed.

Lemma override_backs_empty (keys : list string) (m : gmap string string) :
  override_backs keys [] m = [].
Proof.
  induction keys as [|k r IH]; simpl; [reflexivity|]. now destruct (m !! k).
Qed.

(** When the image root is missing, the indexer reports it once and the
    run degrades to nothing matching: every card is missing and has no
    back. *)
Theorem missing_library_matches_nothing
    (lib : Library) (exts : list string) (error_log : Path) (d : FS)
    (index : Index) (catalog : list Path) (d1 : FS) :
  lib_exists lib = false ->
  index_library lib exts error_log d = inr (index, catalog, d1) ->
  log ("[ERROR] Images directory not found: " +:+ path_str (lib_root lib)) error_log d
    = inr d1
  /\ forall card_name src m,
       best_match card_name index = inr (None, [], false)
       /\ resolve_backs card_name src index catalog m = [].
Proof.
  intros He H. unfold index_library in H. rewrite He in H. cbn [negb] in H.
  destruct (log _ error_log d) as [e|d0] eqn:El; cbn [bind] in H; [discriminate|].
  injection H as <- <- <-. split; [reflexivity|].
  intros card_name src m. split.
  { unfold best_match. cbn [index_get index_keys List.map List.filter].
    unfold buckets_of. cbn [List.map List.concat].
    destruct (extract_pitch card_name); reflexivity. }
  unfold resolve_backs, explicit_backs.
  rewrite buckets_of_empty, override_backs_empty. unfold paren_backs, keyword_backs.
  cbn [List.filter orelse]. now destruct (bool_decide _).
Qed.

Lemma missing_library_matches_nothing_witness :
  best_match "Card"
    (fst (Scenario.built (mkLibrary ["lib"] false (fun _ => [])) [".png"]))
  = inr (None, [], false).
Proof.
  refine (proj1 (proj2 (missing_library_matches_nothing
            (mkLibrary ["lib"] false (fun _ => [])) [".png"]
            Scenario.errors_txt Scenario.empty_disk
            (fst (Scenario.built (mkLibrary ["lib"] false (fun _ => [])) [".png"]))
            (snd (Scenario.built (mkLibrary ["lib"] false (fun _ => [])) [".png"]))
            (mkFS (dirs Scenario.empty_disk)
               (<[Scenario.errors_txt :=
                    mkContent None ["[ERROR] Images directory not found: lib"]]> ∅))
            eq_refl _) "Card" [] ∅)).
  by_evaluation.
Defined.

(** ** What a run keeps *)

Lemma keeps_refl (elog : Path) (d : FS) : keeps elog d d.
Proof.
  split; [reflexivity|]. intros p c H. destruct (decide (p = elog)); [|exact H].
  exists []. rewrite app_nil_r. now destruct c.
Qed.

Lemma keeps_trans (elog : Path) (d1 d2 d3 : FS) :
  keeps elog d1 d2 -> keeps elog d2 d3 -> keeps elog d1 d3.
Proof.
  intros [Hd1 Hf1] [Hd2 Hf2]. split; [now transitivity (dirs d2)|].
  intros p c H. specialize (Hf1 p c H). destruct (decide (p = elog)) as [->|N].
  - destruct Hf1 as (e1 & H1). specialize (Hf2 _ _ H1).
    rewrite decide_True in Hf2 by reflexivity. destruct Hf2 as (e2 & H2).
    exists (e1 ++ e2). rewrite H2. simpl. now rewrite app_assoc.
  - specialize (Hf2 _ _ Hf1). now rewrite decide_False in Hf2 by exact N.
Qed.

Lemma mkdir_keeps (elog : Path) (d d1 : FS) (p : Path) :
  mkdir d p = inr d1 -> keeps elog d d1 /\ files d1 = files d /\ is_dir d1 p = true.
Proof.
  unfold mkdir. destruct (is_dir d p) eqn:E.
  - intros H. injection H as <-. split; [apply keeps_refl|auto].
  - destruct (List.existsb (is_file d) (ancestors p)) eqn:E2; [discriminate|].
    intros H. injection H as <-.
    split; [|split; [reflexivity|]].
    + split; [cbn [dirs]; apply union_subseteq_l|].
      intros q c Hq. cbn [files]. destruct (decide (q = elog)); [|exact Hq].
      exists []. rewrite app_nil_r. now destruct c.
    + apply is_dir_true. change (p ∈ dirs d ∪ list_to_set (ancestors p)).
      apply elem_of_union_r. apply elem_of_list_to_set.
      apply list_elem_of_In, ancestors_self.
Qed.

Lemma log_spec (msg : string) (error_log : Path) (d d1 : FS) :
  log msg error_log d = inr d1 ->
  (exists c, files d1 !! error_log = Some c
             /\ appended c
                = default [] (appended <$> (files d !! error_log)) ++ [str_rstrip msg]
             /\ origin c = (files d !! error_log) ≫= origin)
  /\ (forall p, p <> error_log -> files d1 !! p = files d !! p)
  /\ dirs d ⊆ dirs d1
  /\ is_dir d1 (path_parent error_log) = true.
Proof.
  unfold log. destruct (mkdir d (path_parent error_log)) as [e|d0] eqn:Em;
    cbn [bind]; [discriminate|].
  destruct (mkdir_keeps error_log _ _ _ Em) as ([Hd _] & Hf & Hdir).
  destruct (is_dir d0 error_log); [discriminate|]. intros H. injection H as <-.
  cbn [files dirs]. rewrite Hf. split; [|split; [|split]].
  - eexists. rewrite lookup_insert_eq. split; [reflexivity|]. cbn [appended origin].
    destruct (files d !! error_log) as [c|]; cbn; auto.
  - intros p Hp. now rewrite lookup_insert_ne by congruence.
  - exact Hd.
  - apply is_dir_true. now apply is_dir_true in Hdir.
Qed.

(** The log is append-only: a logged line goes to the end of the error log,
    stripped of trailing whitespace, and nothing else is touched. *)
Theorem log_appends (msg : string) (error_log : Path) (d d1 : FS) :
  log msg error_log d = inr d1 ->
  (exists c, files d1 !! error_log = Some c
             /\ appended c
                = default [] (appended <$> (files d !! error_log)) ++ [str_rstrip msg]
             /\ origin c = (files d !! error_log) ≫= origin)
  /\ (forall p, p <> error_log -> files d1 !! p = files d !! p)
  /\ dirs d ⊆ dirs d1
  /\ is_dir d1 (path_parent error_log) = true.
Proof.
  unfold log. destruct (mkdir d (path_parent error_log)) as [e|d0] eqn:Em;
    cbn [bind]; [discriminate|].
  destruct (mkdir_keeps error_log _ _ _ Em) as ([Hd _] & Hf & Hdir).
  destruct (is_dir d0 error_log); [discriminate|]. intros H. injection H as <-.
  cbn [files dirs]. rewrite Hf. split; [|split; [|split]].
  - eexists. rewrite lookup_insert_eq. split; [reflexivity|]. cbn [appended origin].
    destruct (files d !! error_log) as [c|]; cbn; auto.
  - intros p Hp. now rewrite lookup_insert_ne by congruence.
  - exact Hd.
  - apply is_dir_true. now apply is_dir_true in Hdir.
Qed.

Lemma log_appends_witness :
  log "[WARN] one  " Scenario.errors_txt Scenario.empty_disk
    = inr (mkFS (dirs Scenario.empty_disk)
             (<[Scenario.errors_txt := mkContent None ["[WARN] one"]]> ∅))
  /\ forall p, p <> Scenario.errors_txt ->
       (<[Scenario.errors_txt := mkContent None ["[WARN] one"]]> ∅
          : gmap Path Content) !! p
       = files Scenario.empty_disk !! p.
Proof.
  assert (H : log "[WARN] one  " Scenario.errors_txt Scenario.empty_disk
              = inr (mkFS (dirs Scenario.empty_disk)
                       (<[Scenario.errors_txt := mkContent None ["[WARN] one"]]> ∅)))
    by by_evaluation.
  split; [exact H|]. exact (proj1 (proj2 (log_appends _ _ _ _ H))).
Defined.

Lemma log_keeps (msg : string) (elog : Path) (d d1 : FS) :
  log msg elog d = inr d1 -> keeps elog d d1.
Proof.
  intros H. destruct (log_spec _ _ _ _ H) as ((c & Hc & Ha & Ho) & Hf & Hd & _).
  split; [exact Hd|]. intros p c0 Hp. destruct (decide (p = elog)) as [->|N].
  - exists [str_rstrip msg]. rewrite Hc. rewrite Hp in Ha, Ho. cbn in Ha, Ho.
    destruct c as [o a]. cbn in *. now subst.
  - now rewrite (Hf p N).
Qed.

Lemma copy2_keeps (elog : Path) (d d1 : FS) (src dst : Path) :
  copy2 d src dst = Some d1 ->
  keeps elog d d1 /\ files d1 !! dst = Some (mkContent (Some src) [])
  /\ dirs d1 = dirs d.
Proof.
  unfold copy2. destruct (is_dir d (path_parent dst) && negb (path_exists d dst)) eqn:E;
    [|discriminate].
  intros H. injection H as <-. apply andb_true_iff in E as [_ E].
  apply negb_true_iff in E. unfold path_exists in E. apply orb_false_iff in E as [_ E].
  unfold is_file in E. apply bool_decide_eq_false in E.
  split; [|split; [cbn [files]; apply lookup_insert_eq|reflexivity]].
  split; [reflexivity|]. intros p c Hp. cbn [files].
  assert (Hne : p <> dst) by (intros ->; apply E; eauto).
  rewrite lookup_insert_ne by congruence.
  destruct (decide (p = elog)); [|exact Hp].
  exists []. rewrite app_nil_r. now destruct c.
Qed.

Lemma copy_once_keeps (deck_file what : string) (src out elog : Path) (d d1 : FS) :
  copy_once deck_file what src out elog d = inr d1 -> keeps elog d d1.
Proof.
  unfold copy_once. destruct (path_exists d out).
  - apply log_keeps.
  - destruct (copy2 d src out) as [d0|] eqn:E.
    + intros H. injection H as <-. now apply (copy2_keeps elog) in E as [E _].
    + apply log_keeps.
Qed.

Lemma fold_keeps {A : Type} (elog : Path) (step : A -> FS -> Res FS) (l : list A) :
  (forall a d d1, step a d = inr d1 -> keeps elog d d1) ->
  forall d d1,
    List.fold_left (fun acc a => let! d0 := acc in step a d0) l (ret d) = inr d1 ->
    keeps elog d d1.
Proof.
  intros Hstep. induction l as [|a r IH] using rev_ind; intros d d1 H.
  - injection H as <-. apply keeps_refl.
  - rewrite fold_left_app in H. cbn [List.fold_left] in H.
    destruct (List.fold_left _ r (ret d)) as [e|d0] eqn:E; cbn [bind] in H;
      [discriminate|].
    apply (keeps_trans elog d d0 d1); [apply IH; exact E|apply (Hstep a); exact H].
Qed.


(** The copy loop never overwrites and never removes: whatever it returns,
    every folder is still there and every file that was there has its
    content, the error log having at most gained lines. *)
Theorem copy_loop_keeps
    (deck_file what shown : string) (qty : nat) (src dest_dir error_log : Path)
    (d d1 : FS) :
  copy_loop deck_file what shown qty src dest_dir error_log d = inr d1 ->
  keeps error_log d d1.
Proof.
  unfold copy_loop. apply (fold_keeps error_log
    (fun i d0 => copy_once deck_file what src
                   (join dest_dir (copy_name shown i qty (path_suffix src))) error_log d0)).
  intros i d0 d2. apply copy_once_keeps.
Qed.

Lemma copy_loop_keeps_witness :
  keeps Scenario.errors_txt Scenario.ember_outcome
    (mkFS (dirs Scenario.ember_outcome)
       (<[Scenario.ember_folder ++ ["Ember's Call (red) - 3 of 3.png"] :=
            Scenario.copy_of Scenario.ember_front]>
          (<[Scenario.ember_folder ++ ["Ember's Call (red) - 2 of 3.png"] :=
               Scenario.copy_of Scenario.ember_front]>
             (<[Scenario.ember_folder ++ ["Ember's Call (red) - 1 of 3.png"] :=
                  Scenario.copy_of Scenario.ember_front]>
                (files Scenario.ember_outcome))))).
Proof.
  apply (copy_loop_keeps "deck.txt" "Ember's Call (red)" "Ember's Call (red)" 3
           Scenario.ember_front Scenario.ember_folder Scenario.errors_txt
           Scenario.ember_outcome).
  by_evaluation.
Defined.

Lemma keeps_is_dir (elog : Path) (d d1 : FS) (p : Path) :
  keeps elog d d1 -> is_dir d p = true -> is_dir d1 p = true.
Proof.
  intros [Hd _] H. apply is_dir_true. apply is_dir_true in H. now apply Hd.
Qed.

Lemma keeps_path_exists (elog : Path) (d d1 : FS) (p : Path) :
  keeps elog d d1 -> path_exists d p = true -> path_exists d1 p = true.
Proof.
  intros Hk H. unfold path_exists in *. apply orb_true_iff in H as [H|H];
    apply orb_true_iff.
  - left. now apply (keeps_is_dir elog d).
  - right. unfold is_file in *. apply bool_decide_eq_true in H as [c Hc].
    apply bool_decide_eq_true. destruct Hk as [_ Hf]. specialize (Hf p c Hc).
    destruct (decide (p = elog)) as [Ep|Np]; [destruct Hf as (x & ->)|rewrite Hf]; eauto.
Qed.

Lemma copy_name_nonempty (shown : string) (i qty : nat) (sfx : string) :
  copy_name shown i qty sfx <> "".
Proof.
  unfold copy_name. intros H. apply (f_equal chars_of) in H.
  rewrite !chars_of_app in H. apply app_eq_nil in H as [_ H]. discriminate.
Qed.

Lemma path_parent_join (p : Path) (s : string) : s <> "" -> path_parent (join p s) = p.
Proof.
  intros H. unfold join, path_parent. rewrite decide_False by exact H.
  apply removelast_last.
Qed.

Lemma copy_once_exists (deck_file what : string) (src out elog : Path) (d d1 : FS) :
  is_dir d (path_parent out) = true ->
  copy_once deck_file what src out elog d = inr d1 ->
  path_exists d1 out = true.
Proof.
  intros Hdir. unfold copy_once. destruct (path_exists d out) eqn:E.
  - intros H. apply log_keeps in H. now apply (keeps_path_exists elog d).
  - unfold copy2. rewrite Hdir, E. cbn [negb andb]. intros H. injection H as <-.
    unfold path_exists, is_file. cbn [files]. rewrite lookup_insert_eq.
    apply orb_true_iff. right. apply bool_decide_eq_true. eauto.
Qed.

Lemma copy_steps_complete (deck_file what : string) (src dest elog : Path)
    (name : nat -> string) (l : list nat) (d d1 : FS) :
  (forall i, name i <> "") ->
  is_dir d dest = true ->
  List.fold_left
    (fun acc i => let! d0 := acc in
                  copy_once deck_file what src (join dest (name i)) elog d0)
    l (ret d) = inr d1 ->
  keeps elog d d1 /\ forall i, In i l -> path_exists d1 (join dest (name i)) = true.
Proof.
  intros Hname Hdir. revert d1. induction l as [|a r IH] using rev_ind; intros d1 H.
  - injection H as <-. split; [apply keeps_refl|contradiction].
  - rewrite fold_left_app in H. cbn [List.fold_left] in H.
    destruct (List.fold_left _ r (ret d)) as [e|d0] eqn:E; cbn [bind] in H;
      [discriminate|].
    destruct (IH d0 eq_refl) as [Hk Hall].
    pose proof (copy_once_keeps _ _ _ _ _ _ _ H) as Hk1. split.
    + now apply (keeps_trans elog d d0 d1).
    + intros i Hi. apply in_app_iff in Hi as [Hi|[<-|[]]].
      * apply (keeps_path_exists elog d0); [exact Hk1|now apply Hall].
      * apply copy_once_exists in H; [exact H|].
        rewrite path_parent_join by apply Hname. now apply (keeps_is_dir elog d).
Qed.

Lemma copy_loop_targets
    (deck_file what shown : string) (qty : nat) (src dest_dir error_log : Path)
    (d d1 : FS) :
  is_dir d dest_dir = true ->
  copy_loop deck_file what shown qty src dest_dir error_log d = inr d1 ->
  forall i, 1 <= i <= qty ->
    path_exists d1 (join dest_dir (copy_name shown i qty (path_suffix src))) = true.
Proof.
  intros Hdir H i Hi. unfold copy_loop in H.
  apply (copy_steps_complete deck_file what src dest_dir error_log
           (fun i => copy_name shown i qty (path_suffix src))) in H.
  - destruct H as [_ H]. apply H. apply in_seq. lia.
  - intros j. apply copy_name_nonempty.
  - exact Hdir.
Qed.



Lemma skip_steps_copy_nothing (deck_file what : string) (src dest elog : Path)
    (name : nat -> string) (l : list nat) (d d1 : FS) :
  (forall i, In i l -> path_exists d (join dest (name i)) = true) ->
  List.fold_left
    (fun acc i => let! d0 := acc in
                  copy_once deck_file what src (join dest (name i)) elog d0)
    l (ret d) = inr d1 ->
  keeps elog d d1 /\ forall p, p <> elog -> files d1 !! p = files d !! p.
Proof.
  intros Hex. revert d1. induction l as [|a r IH] using rev_ind; intros d1 H.
  - injection H as <-. split; [apply keeps_refl|reflexivity].
  - rewrite fold_left_app in H. cbn [List.fold_left] in H.
    destruct (List.fold_left _ r (ret d)) as [e|d0] eqn:E; cbn [bind] in H;
      [discriminate|].
    destruct (IH (fun i Hi => Hex i (in_or_app _ _ _ (or_introl Hi))) d0 eq_refl)
      as [Hk Hf].
    pose proof (copy_once_keeps _ _ _ _ _ _ _ H) as Hk1.
    split; [now apply (keeps_trans elog d d0 d1)|].
    intros p Hp. rewrite <- (Hf p Hp). unfold copy_once in H.
    rewrite (keeps_path_exists elog d d0 _ Hk) in H
      by (apply Hex, in_or_app; right; now left).
    apply log_spec in H as (_ & H & _). exact (H p Hp).
Qed.

(** Running the copy loop a second time over its own result, in an existing
    folder, copies nothing: apart from the error log, which gains the
    lines of the skipped targets, every file is as the first pass left it. *)
Theorem copy_loop_again
    (deck_file what shown : string) (qty : nat) (src dest_dir error_log : Path)
    (d d1 d2 : FS) :
  is_dir d dest_dir = true ->
  copy_loop deck_file what shown qty src dest_dir error_log d = inr d1 ->
  copy_loop deck_file what shown qty src dest_dir error_log d1 = inr d2 ->
  forall p, p <> error_log -> files d2 !! p = files d1 !! p.
Proof.
  intros Hdir H1 H2.
  pose proof (copy_loop_targets _ _ _ _ _ _ _ _ _ Hdir H1) as Hall.
  unfold copy_loop in H2.
  apply (skip_steps_copy_nothing deck_file what src dest_dir error_log
           (fun i => copy_name shown i qty (path_suffix src))) in H2.
  - now destruct H2.
  - intros i Hi. apply in_seq in Hi. apply Hall. lia.
Qed.

Lemma copy_loop_again_witness :
  forall_others_same Scenario.errors_txt
    (mkFS (dirs Scenario.empty_disk ∪ {[ ["out"; "D"] ]})
       (<[["out"; "D"; "Gust - 1 of 1.png"] := Scenario.copy_of ["lib"; "Gust.png"]]> ∅))
    (mkFS (dirs Scenario.empty_disk ∪ {[ ["out"; "D"] ]})
       (<[Scenario.errors_txt :=
            mkContent None ["[SKIP-EXISTS] deck.txt | Gust - 1 of 1.png"]]>
          (<[["out"; "D"; "Gust - 1 of 1.png"] :=
               Scenario.copy_of ["lib"; "Gust.png"]]> ∅))).
Proof.
  unfold forall_others_same.
  apply (copy_loop_again "deck.txt" "Gust" "Gust" 1 ["lib"; "Gust.png"]
           ["out"; "D"] Scenario.errors_txt
           (mkFS (dirs Scenario.empty_disk ∪ {[ ["out"; "D"] ]}) ∅)).
  - vm_compute. reflexivity.
  - by_evaluation.
  - by_evaluation.
Defined.

(** ** Destination folders, whatever the branch *)

Lemma setdefault_keeps (b key : string) (m : gmap string string) (k v : string) :
  m !! k = Some v -> setdefault b key m !! k = Some v.
Proof.
  intros H. rewrite setdefault_lookup. destruct (decide (k = b)) as [->|N]; [|exact H].
  now rewrite H.
Qed.

Lemma mkdir_errors (d : FS) (p : Path) (e : Exn) :
  mkdir d p = inl e -> e = FileExistsError.
Proof.
  unfold mkdir. destruct (is_dir d p); [discriminate|].
  destruct (List.existsb (is_file d) (ancestors p)); [|discriminate].
  intros H. now injection H as <-.
Qed.

Lemma log_errors (msg : string) (elog : Path) (d : FS) (e : Exn) :
  log msg elog d = inl e -> e = FileExistsError \/ e = IsADirectoryError.
Proof.
  unfold log. destruct (mkdir d (path_parent elog)) as [e0|d0] eqn:E; cbn [bind].
  - intros H. injection H as <-. left. now apply mkdir_errors in E.
  - destruct (is_dir d0 elog); [|discriminate]. intros H. injection H as <-. now right.
Qed.

(** Whatever branch is taken, a folder returned by [choose_dest_dir] exists
    as a folder and is claimed, the claims made before are kept with their
    owner, and the tree keeps all it held. *)
Theorem choose_dest_dir_sound
    (base_dir : Path) (base_name deck_key : string) (existing : gset string)
    (claims : gmap string string) (error_log : Path) (d : FS)
    (dest : Path) (claims1 : gmap string string) (d1 : FS) :
  choose_dest_dir base_dir base_name deck_key existing claims error_log d
    = inr (dest, claims1, d1) ->
  is_dir d1 dest = true
  /\ (exists name, dest = join base_dir name /\ is_Some (claims1 !! name))
  /\ (forall k v, claims !! k = Some v -> claims1 !! k = Some v)
  /\ keeps error_log d d1.
Proof.
  unfold choose_dest_dir. set (b := sanitize_filename base_name).
  assert (Hfresh : forall r,
    (let! d0 := mkdir d (join base_dir b) in
     ret (join base_dir b, <[b := deck_key]> claims, d0)) = inr r ->
    (claims !! b = None \/ claims !! b = Some deck_key) ->
    is_dir (snd r) (fst (fst r)) = true
    /\ (exists name, fst (fst r) = join base_dir name /\ is_Some (snd (fst r) !! name))
    /\ (forall k v, claims !! k = Some v -> snd (fst r) !! k = Some v)
    /\ keeps error_log d (snd r)).
  { intros r H Hown. destruct (mkdir d (join base_dir b)) as [e|d0] eqn:Em;
      cbn [bind] in H; [discriminate|]. injection H as <-. cbn [fst snd].
    destruct (mkdir_keeps error_log _ _ _ Em) as (Hk & _ & Hdir).
    split; [exact Hdir|]. split; [|split; [|exact Hk]].
    - exists b. split; [reflexivity|]. rewrite lookup_insert_eq. eauto.
    - intros k v Hkv. destruct (decide (k = b)) as [->|N].
      + rewrite lookup_insert_eq. destruct Hown as [Ho|Ho]; congruence.
      + now rewrite lookup_insert_ne by congruence. }
  destruct (bool_decide (b ∈ existing) || path_exists d (join base_dir b)) eqn:Hre.
  - destruct (mkdir d (join base_dir b)) as [e|d0] eqn:Em; cbn [bind];
      [discriminate|]. intros H. injection H as <- <- <-.
    destruct (mkdir_keeps error_log _ _ _ Em) as (Hk & _ & Hdir).
    split; [exact Hdir|]. split; [|split; [|exact Hk]].
    + exists b. split; [reflexivity|]. rewrite setdefault_lookup.
      rewrite decide_True by reflexivity. eauto.
    + intros k v. apply setdefault_keeps.
  - destruct (claims !! b) as [owner|] eqn:Hown.
    + destruct (bool_decide (owner = deck_key)) eqn:Hsame.
      * apply bool_decide_eq_true in Hsame. subst owner. intros H.
        apply (Hfresh (dest, claims1, d1) H). now right.
      * destruct (first_free _ _ 2) as [n|] eqn:Hn; [|discriminate].
        apply first_free_some in Hn as (_ & _ & Hfree & _).
        unfold variant_busy in Hfree. apply orb_false_iff in Hfree as [_ Hc].
        unfold claimed in Hc. apply bool_decide_eq_false in Hc.
        destruct (mkdir d (join base_dir (variant_name b n))) as [e|d0] eqn:Em;
          cbn [bind]; [discriminate|].
        destruct (log _ error_log d0) as [e|d2] eqn:El; cbn [bind]; [discriminate|].
        intros H. apply (inj inr) in H.
        apply pair_equal_spec in H as [H <-]. apply pair_equal_spec in H as [<- <-].
        destruct (mkdir_keeps error_log _ _ _ Em) as (Hk & _ & Hdir).
        pose proof (log_keeps _ _ _ _ El) as Hk2.
        split; [now apply (keeps_is_dir error_log d0)|].
        split; [|split; [|now apply (keeps_trans error_log d d0 d2)]].
        -- exists (variant_name b n). split; [reflexivity|].
           rewrite lookup_insert_eq. eauto.
        -- intros k v Hkv. rewrite lookup_insert_ne; [exact Hkv|].
           intros <-. apply Hc. eauto.
    + intros H. apply (Hfresh (dest, claims1, d1) H). now left.
Qed.

Lemma choose_dest_dir_sound_witness :
  is_dir (mkFS {[ []; Scenario.out; ["out"; "Storm"] ]} ∅) ["out"; "Storm"] = true
  /\ keeps Scenario.errors_txt Scenario.empty_disk
       (mkFS {[ []; Scenario.out; ["out"; "Storm"] ]} ∅).
Proof.
  destruct (choose_dest_dir_sound Scenario.out "Storm" "Deck A" ∅ ∅
              Scenario.errors_txt Scenario.empty_disk ["out"; "Storm"]
              (<["Storm" := "Deck A"]> ∅)
              (mkFS {[ []; Scenario.out; ["out"; "Storm"] ]} ∅))
    as (H1 & _ & _ & H4).
  - by_evaluation.
  - split; [exact H1|exact H4].
Defined.

(** The numbering loops end: [choose_dest_dir] and [rename_with_suffix] can
    fail only where making a folder or writing the log fails, on a regular
    file in the way of a folder or a folder in the way of the log. *)
Lemma numbering_loops_errors
    (base_dir : Path) (base_name deck_key : string) (existing : gset string)
    (claims : gmap string string) (dest_dir : Path) (suffix : string)
    (error_log : Path) (d : FS) (e : Exn) :
  (choose_dest_dir base_dir base_name deck_key existing claims error_log d = inl e ->
   e = FileExistsError \/ e = IsADirectoryError)
  /\ (rename_with_suffix dest_dir suffix error_log d = inl e ->
      e = FileExistsError \/ e = IsADirectoryError).
Proof.
  split.
  - unfold choose_dest_dir. set (b := sanitize_filename base_name).
    assert (Hmk : forall (k : FS -> Res (Path * gmap string string * FS)),
              (forall d0, k d0 = inl e -> e = FileExistsError \/ e = IsADirectoryError) ->
              forall p, (let! d0 := mkdir d p in k d0) = inl e ->
              e = FileExistsError \/ e = IsADirectoryError).
    { intros k Hk p. destruct (mkdir d p) as [e0|d0] eqn:Em; cbn [bind].
      - intros H. injection H as <-. left. now apply mkdir_errors in Em.
      - apply Hk. }
    destruct (_ || _).
    + apply Hmk. discriminate.
    + destruct (claims !! b) as [owner|]; [|apply Hmk; discriminate].
      destruct (bool_decide (owner = deck_key)); [apply Hmk; discriminate|].
      destruct (variant_search_ends base_dir b claims d) as (n & ->).
      apply Hmk. intros d0. destruct (log _ error_log d0) as [e0|d2] eqn:El; cbn [bind].
      * intros H. injection H as <-. now apply log_errors in El.
      * discriminate.
  - unfold rename_with_suffix. destruct (endswith _ _); [discriminate|].
    set (new_name := sanitize_filename _).
    assert (Hlog : forall msg (r : Path),
              (let! d1 := log msg error_log d in ret (r, d1)) = inl e ->
              e = FileExistsError \/ e = IsADirectoryError).
    { intros msg r. destruct (log msg error_log d) as [e0|d1] eqn:El; cbn [bind].
      - intros H. injection H as <-. now apply log_errors in El.
      - discriminate. }
    destruct (negb _).
    + destruct (rename d dest_dir _); [discriminate|]. apply Hlog.
    + assert (Hends : exists n,
                first_free
                  (fun n => path_exists d (join (path_parent dest_dir)
                                             (variant_name new_name n)))
                  (S (entries_count d)) 2 = Some n).
      { apply (first_free_total _ (variant_name new_name) (taken_names d ∅)).
        - apply variant_name_inj.
        - intros j Hj. apply (path_exists_taken d ∅) in Hj.
          now rewrite path_name_join in Hj by apply variant_name_nonempty.
        - rewrite taken_names_length. rewrite dom_empty_L, size_empty. lia. }
      destruct Hends as (n & ->). unfold rename_or_log.
      destruct (rename d dest_dir _); [discriminate|]. apply Hlog.
Qed.

(** The numbering loops end: whatever the tree and the claims, the two
    functions return, or fail on a regular file in the way of a folder or
    on a folder in the way of the log, and on nothing else. *)
Theorem numbering_loops_end
    (base_dir : Path) (base_name deck_key : string) (existing : gset string)
    (claims : gmap string string) (dest_dir : Path) (suffix : string)
    (error_log : Path) (d : FS) :
  match choose_dest_dir base_dir base_name deck_key existing claims error_log d with
  | inl e => e = FileExistsError \/ e = IsADirectoryError
  | inr _ => True
  end
  /\ match rename_with_suffix dest_dir suffix error_log d with
     | inl e => e = FileExistsError \/ e = IsADirectoryError
     | inr _ => True
     end.
Proof.
  split.
  - destruct (choose_dest_dir _ _ _ _ _ _ _) as [e|r] eqn:E; [|exact I].
    exact (proj1 (numbering_loops_errors base_dir base_name deck_key existing claims
                    dest_dir suffix error_log d e) E).
  - destruct (rename_with_suffix _ _ _ _) as [e|r] eqn:E; [|exact I].
    exact (proj2 (numbering_loops_errors base_dir base_name deck_key existing claims
                    dest_dir suffix error_log d e) E).
Qed.

(** The fresh branch of [choose_dest_dir]: a name that was not there before
    the run, is not on disk and is unclaimed, or claimed by the same deck,
    gets its own folder, made and claimed for the deck. *)
Theorem choose_dest_dir_fresh
    (base_dir : Path) (base_name deck_key : string) (existing : gset string)
    (claims : gmap string string) (error_log : Path) (d : FS) :
  let b := sanitize_filename base_name in
  b ∉ existing ->
  path_exists d (join base_dir b) = false ->
  claims !! b = None \/ claims !! b = Some deck_key ->
  (forall q, In q (ancestors (join base_dir b)) -> is_file d q = false) ->
  exists d1,
    choose_dest_dir base_dir base_name deck_key existing claims error_log d
      = inr (join base_dir b, <[b := deck_key]> claims, d1)
    /\ is_dir d1 (join base_dir b) = true
    /\ files d1 = files d
    /\ dirs d1 = dirs d ∪ list_to_set (ancestors (join base_dir b)).
Proof.
  intros b Hex Hdisk Hown Hfiles.
  assert (Hnd : is_dir d (join base_dir b) = false).
  { unfold path_exists in Hdisk. now apply orb_false_iff in Hdisk as [H _]. }
  assert (Hm : mkdir d (join base_dir b)
               = inr (mkFS (dirs d ∪ list_to_set (ancestors (join base_dir b))) (files d))).
  { unfold mkdir. rewrite Hnd.
    assert (List.existsb (is_file d) (ancestors (join base_dir b)) = false) as ->;
      [|reflexivity].
    apply not_true_is_false. intros Hx. apply existsb_exists in Hx as (q & Hq & Hf).
    rewrite (Hfiles q Hq) in Hf. discriminate. }
  exists (mkFS (dirs d ∪ list_to_set (ancestors (join base_dir b))) (files d)).
  split; [|split; [|split; reflexivity]].
  - unfold choose_dest_dir. fold b. rewrite bool_decide_eq_false_2 by exact Hex.
    rewrite Hdisk. cbn [orb]. rewrite Hm. cbn [bind].
    destruct Hown as [-> | ->]; [reflexivity|].
    rewrite bool_decide_eq_true_2 by reflexivity. reflexivity.
  - apply is_dir_true. change (join base_dir b ∈ dirs d ∪ list_to_set (ancestors (join base_dir b))).
    apply elem_of_union_r. apply elem_of_list_to_set.
    apply list_elem_of_In, ancestors_self.
Qed.

Lemma choose_dest_dir_fresh_witness :
  path_exists Scenario.empty_disk (join Scenario.out (sanitize_filename "Storm")) = false
  /\ exists d1,
       choose_dest_dir Scenario.out "Storm" "Deck A" ∅ ∅ Scenario.errors_txt
         Scenario.empty_disk
       = inr (join Scenario.out (sanitize_filename "Storm"),
              <[sanitize_filename "Storm" := "Deck A"]> ∅, d1)
       /\ is_dir d1 (join Scenario.out (sanitize_filename "Storm")) = true.
Proof.
  assert (H : path_exists Scenario.empty_disk
                (join Scenario.out (sanitize_filename "Storm")) = false)
    by (vm_compute; reflexivity).
  split; [exact H|].
  destruct (choose_dest_dir_fresh Scenario.out "Storm" "Deck A" ∅ ∅
              Scenario.errors_txt Scenario.empty_disk (not_elem_of_empty _) H)
    as (d1 & H1 & H2 & _).
  - now left.
  - intros q Hq. vm_compute. reflexivity.
  - exists d1. split; [exact H1|exact H2].
Defined.

(** ** The pairs of the override file *)

Lemma split_comma_no_comma (l a b : chars) :
  split_comma l = Some (a, b) -> ~ In ","%char a.
Proof.
  revert a b. induction l as [|c r IH]; intros a b H; simpl in H; [discriminate|].
  destruct (ceqb c ",") eqn:E.
  - injection H as <- _. auto.
  - destruct (split_comma r) as [[a0 b0]|]; [|discriminate]. injection H as <- _.
    intros [Hc|Hin].
    + subst c. discriminate E.
    + now apply (IH a0 b0).
Qed.

Lemma strip_In (l : chars) (c : ascii) : In c (strip l) -> In c l.
Proof. unfold strip. intros H. now apply rstrip_In, lstrip_In in H. Qed.

Lemma backs_line_pairs (m : gmap string string) (raw : string) :
  map_Forall well_paired m -> map_Forall well_paired (backs_line m raw).
Proof.
  intros Hm. unfold backs_line.
  destruct (strip (chars_of raw)) as [|c line] eqn:El; [exact Hm|].
  destruct (ceqb c "#"); [exact Hm|].
  destruct (split_comma (c :: line)) as [[a b]|] eqn:Es; [|exact Hm].
  destruct (strip a) as [|f fs] eqn:Ea; [exact Hm|].
  destruct (strip b) as [|k ks] eqn:Eb; [exact Hm|].
  apply map_Forall_insert_2; [|exact Hm].
  unfold well_paired, str_strip. rewrite !chars_of_text, <- Ea, <- Eb, !strip_idem.
  repeat split.
  - intros H. apply text_empty in H. rewrite Ea in H. discriminate.
  - intros H. apply text_empty in H. rewrite Eb in H. discriminate.
  - intros H. apply strip_In in H. now apply (split_comma_no_comma _ _ _ Es).
Qed.

(** Every pairing loaded from the override file has a front and a back
    that are not empty and carry no surrounding whitespace, and a front
    without comma: the line is split at its first comma. *)
Theorem load_backs_map_pairs (content : option string) (k v : string) :
  load_backs_map content !! k = Some v ->
  k <> "" /\ v <> "" /\ str_strip k = k /\ str_strip v = v
  /\ ~ In ","%char (chars_of k).
Proof.
  assert (H : map_Forall well_paired (load_backs_map content)).
  { unfold load_backs_map. destruct content as [s|]; [|apply map_Forall_empty].
    assert (G : forall l m, map_Forall well_paired m ->
                  map_Forall well_paired (List.fold_left backs_line l m)).
    { induction l as [|x r IH]; intros m Hm; simpl; [exact Hm|].
      apply IH. now apply backs_line_pairs. }
    apply G, map_Forall_empty. }
  intros Hk. exact (H k v Hk).
Qed.

Lemma load_backs_map_pairs_witness :
  load_backs_map
    (Some ("# pairs" +:+ Scenario.newline +:+ " Foo ,  Bar, the second "
           +:+ Scenario.newline +:+ "no comma here"))
    !! "Foo" = Some "Bar, the second"
  /\ "Foo" <> "" /\ "Bar, the second" <> ""
  /\ str_strip "Foo" = "Foo" /\ str_strip "Bar, the second" = "Bar, the second"
  /\ ~ In ","%char (chars_of "Foo").
Proof.
  assert (H : load_backs_map
                (Some ("# pairs" +:+ Scenario.newline +:+ " Foo ,  Bar, the second "
                       +:+ Scenario.newline +:+ "no comma here"))
                !! "Foo" = Some "Bar, the second") by (vm_compute; reflexivity).
  split; [exact H|]. exact (load_backs_map_pairs _ _ _ H).
Defined.

(** ** The wording of variant names *)

Lemma kept_of_legal (c : ascii) : is_illegal c = false -> kept c = true.
Proof.
  intros H. unfold kept. rewrite H. simpl. destruct (ceqb c ":") eqn:E; [|reflexivity].
  apply Ascii.eqb_eq in E. subst c. discriminate H.
Qed.

Lemma collapse_ws_tidy (l : chars) (b : bool) :
  List.forallb (fun c => negb (is_illegal c)) l = true ->
  tidyb b (collapse_ws b l) = true.
Proof.
  revert b. induction l as [|c r IH]; intros b H; simpl; [reflexivity|].
  simpl in H. apply andb_true_iff in H as [Hc Hr]. apply negb_true_iff in Hc.
  destruct (is_space c) eqn:E.
  - destruct b; [now apply IH|]. simpl. now apply IH.
  - simpl. rewrite E, (kept_of_legal c Hc). now apply IH.
Qed.

Lemma tidyb_weaken (l : chars) (b : bool) : tidyb b l = true -> tidyb false l = true.
Proof.
  destruct l as [|c r]; simpl; [auto|]. destruct (is_space c); [|auto].
  destruct b; simpl; [discriminate|auto].
Qed.

Lemma tidyb_lstrip (l : chars) (b : bool) :
  tidyb b l = true -> tidyb false (lstrip l) = true.
Proof.
  revert b. induction l as [|c r IH]; intros b H; simpl; [reflexivity|].
  destruct (is_space c) eqn:E.
  - simpl in H. rewrite E in H. apply andb_true_iff in H as [_ H]. now apply (IH true).
  - apply (tidyb_weaken _ b). exact H.
Qed.

Lemma tidyb_prefix (p t : chars) (b : bool) :
  tidyb b (p ++ t) = true -> tidyb b p = true.
Proof.
  revert b. induction p as [|c r IH]; intros b H; simpl in *; [reflexivity|].
  destruct (is_space c).
  - apply andb_true_iff in H as [H1 H2]. rewrite H1. simpl. now apply IH.
  - apply andb_true_iff in H as [H1 H2]. rewrite H1. simpl. now apply IH.
Qed.

Lemma sanitize_chars_tidy (l : chars) : tidyb false (sanitize_chars l) = true.
Proof.
  unfold sanitize_chars.
  set (l2 := List.filter _ _).
  assert (H2 : tidyb false (collapse_ws false l2) = true).
  { apply collapse_ws_tidy. apply forallb_forall. intros c Hc.
    unfold l2 in Hc. now apply filter_In in Hc as [_ Hc]. }
  apply tidyb_lstrip in H2.
  destruct (rstrip_prefix (lstrip (collapse_ws false l2))) as (t1 & H1).
  rewrite H1 in H2. apply tidyb_prefix in H2. fold (strip (collapse_ws false l2)) in H2.
  destruct (rstrip_dots_prefix (strip (collapse_ws false l2))) as (t3 & H3).
  rewrite H3 in H2. now apply tidyb_prefix in H2.
Qed.

Lemma tidyb_fixed (l : chars) (b : bool) : tidyb b l = true -> collapse_ws b l = l.
Proof.
  revert b. induction l as [|c r IH]; intros b H; simpl in *; [reflexivity|].
  destruct (is_space c).
  - apply andb_true_iff in H as [H1 H2]. apply andb_true_iff in H1 as [H0 H1].
    apply negb_true_iff in H0. subst b. apply Ascii.eqb_eq in H1. subst c.
    f_equal. now apply IH.
  - apply andb_true_iff in H as [_ H]. f_equal. now apply IH.
Qed.

Lemma tidyb_kept (l : chars) (b : bool) : tidyb b l = true -> List.forallb kept l = true.
Proof.
  revert b. induction l as [|c r IH]; intros b H; simpl in *; [reflexivity|].
  destruct (is_space c).
  - apply andb_true_iff in H as [H1 H2]. apply andb_true_iff in H1 as [_ H1].
    apply Ascii.eqb_eq in H1. subst c. simpl. now apply (IH true).
  - apply andb_true_iff in H as [H1 H2]. rewrite H1. simpl. now apply (IH false).
Qed.

Lemma tidyb_snoc_blank (l : chars) (b : bool) :
  tidyb b l = true -> ends_with [" "%char] l = false -> (l = [] -> b = false) ->
  tidyb b (l ++ [" "%char]) = true.
Proof.
  revert b. induction l as [|c r IH]; intros b H Hend Hb.
  - rewrite (Hb eq_refl). reflexivity.
  - simpl in *. destruct (is_space c) eqn:E.
    + apply andb_true_iff in H as [H1 H2]. rewrite H1. simpl.
      apply andb_true_iff in H1 as [_ H1]. apply Ascii.eqb_eq in H1. subst c.
      apply IH; [exact H2| |].
      * destruct r as [|x r']; [discriminate Hend|].
        unfold ends_with in *. simpl in *.
        destruct (List.rev r' ++ [x]) as [|y t] eqn:Er.
        -- apply app_eq_nil in Er as [_ Er]. discriminate.
        -- simpl in *. exact Hend.
      * intros ->. discriminate Hend.
    + apply andb_true_iff in H as [H1 H2]. rewrite H1. simpl.
      destruct r as [|x r']; [reflexivity|]. apply IH; [exact H2| |discriminate].
      unfold ends_with in *. simpl in *.
      destruct (List.rev r' ++ [x]) as [|y t] eqn:Er.
      * apply app_eq_nil in Er as [_ Er]. discriminate.
      * simpl in *. exact Hend.
Qed.

(** For a sanitized base name that is not empty and does not end with a
    blank, the variant names are the base name followed by a blank and
    the word variant with the number in parentheses, letter for letter. *)
Theorem variant_name_literal (raw : string) (n : nat) :
  let b := sanitize_filename raw in
  b <> "" -> endswith b " " = false ->
  variant_name b n = b +:+ " (variant " +:+ str_of_nat n +:+ ")".
Proof.
  intros b Hne Hend. rewrite variant_name_shape.
  assert (Hb : chars_of b = sanitize_chars (chars_of raw))
    by (unfold b, sanitize_filename; apply chars_of_text).
  pose proof (sanitize_chars_tidy (chars_of raw)) as Ht. rewrite <- Hb in Ht.
  assert (Hcs : chars_of b <> []).
  { intros E. apply Hne. apply chars_of_inj. now rewrite E. }
  assert (Ht2 : tidyb false (chars_of b ++ [" "%char]) = true).
  { apply tidyb_snoc_blank; [exact Ht|exact Hend|auto]. }
  rewrite (clean_kept _ (tidyb_kept _ _ Ht2)), (tidyb_fixed _ _ Ht2).
  assert (Hhead : lstrip (chars_of b ++ [" "%char]) = chars_of b ++ [" "%char]).
  { destruct (chars_of b) as [|c r] eqn:Ec; [contradiction|].
    simpl. now rewrite (proj1 (proj2 (sanitize_filename_shape raw)) c r Ec). }
  rewrite Hhead, text_app, text_chars_of.
  apply chars_of_inj. rewrite !chars_of_app. rewrite <- !app_assoc. reflexivity.
Qed.

Lemma variant_name_literal_witness :
  sanitize_filename "Storm: the deck" <> ""
  /\ endswith (sanitize_filename "Storm: the deck") " " = false
  /\ variant_name (sanitize_filename "Storm: the deck") 12
     = "Storm_ the deck (variant 12)".
Proof.
  assert (H1 : sanitize_filename "Storm: the deck" <> "") by discriminate.
  assert (H2 : endswith (sanitize_filename "Storm: the deck") " " = false)
    by reflexivity.
  split; [exact H1|]. split; [exact H2|].
  exact (variant_name_literal "Storm: the deck" 12 H1 H2).
Defined.

(** Where the base name ends with a blank, left by a period that followed
    it, the blank is not doubled in the variant name. *)
Example variant_name_after_blank :
  sanitize_filename "Deck ." = "Deck "
  /\ variant_name (sanitize_filename "Deck .") 2 = "Deck (variant 2)".
Proof. split; reflexivity. Qed.

(** ** One card of a deck *)



Lemma mkdir_dirs (d d1 : FS) (p : Path) :
  mkdir d p = inr d1 ->
  forall q, q ∈ dirs d1 -> q ∈ dirs d \/ In q (ancestors p).
Proof.
  unfold mkdir. destruct (is_dir d p); [intros H; injection H as <-; auto|].
  destruct (List.existsb (is_file d) (ancestors p)); [discriminate|].
  intros H. injection H as <-. intros q Hq.
  change (q ∈ dirs d ∪ list_to_set (ancestors p)) in Hq.
  apply elem_of_union in Hq as [Hq|Hq]; [now left|right].
  apply elem_of_list_to_set in Hq. now apply list_elem_of_In.
Qed.

Lemma log_only_logged (msg : string) (elog : Path) (d d1 : FS) :
  log msg elog d = inr d1 -> only_logged elog d d1.
Proof.
  intros H. split; [now apply log_keeps in H|]. split.
  - now apply log_spec in H as (_ & H & _).
  - unfold log in H. destruct (mkdir d (path_parent elog)) as [e|d0] eqn:Em;
      cbn [bind] in H; [discriminate|].
    destruct (is_dir d0 elog); [discriminate|]. injection H as <-.
    intros q Hq. now apply (mkdir_dirs _ _ _ Em).
Qed.





(** ** The folder renamed for its unique backs *)

Lemma rebase_self (a b : Path) : rebase a b a = b.
Proof.
  unfold rebase, has_prefix. rewrite List.firstn_all.
  rewrite bool_decide_eq_true_2 by reflexivity.
  rewrite List.skipn_all. apply app_nil_r.
Qed.

Lemma rename_moves (d d1 : FS) (a b : Path) :
  rename d a b = Some d1 ->
  path_exists d b = false
  /\ is_dir d (path_parent b) = true
  /\ (is_dir d a = true -> is_dir d1 b = true).
Proof.
  unfold rename.
  destruct (path_exists d a); cbn [andb]; [|discriminate].
  destruct (path_exists d b); cbn [andb negb]; [discriminate|].
  destruct (is_dir d (path_parent b)); cbn [andb]; [|discriminate].
  destruct (has_prefix a b); cbn [negb]; [discriminate|].
  intros H. injection H as <-. split; [reflexivity|]. split; [reflexivity|].
  intros Ha. apply is_dir_true in Ha. apply is_dir_true. cbn [dirs].
  apply elem_of_map. exists a. split; [now rewrite rebase_self|exact Ha].
Qed.

(** A folder whose name lacks the marker is renamed to a sibling that did
    not exist: the marked name, or when that one exists the variant of the
    least number from 2 whose path is free.  The folder is found under the
    returned path.  When the rename fails, the old path is returned and the
    tree has only gained a line of the log. *)
Theorem rename_with_suffix_target
    (dest_dir : Path) (suffix : string) (error_log : Path) (d d1 : FS) (p : Path) :
  endswith (path_name dest_dir) suffix = false ->
  rename_with_suffix dest_dir suffix error_log d = inr (p, d1) ->
  let parent := path_parent dest_dir in
  let new_name := sanitize_filename (path_name dest_dir +:+ " " +:+ suffix) in
  (p = dest_dir /\ only_logged error_log d d1)
  \/ (rename d dest_dir p = Some d1
      /\ path_exists d p = false
      /\ (is_dir d dest_dir = true -> is_dir d1 p = true)
      /\ ((p = join parent new_name)
          \/ (path_exists d (join parent new_name) = true
              /\ exists n, 2 <= n /\ p = join parent (variant_name new_name n)
                   /\ forall j, 2 <= j -> j < n ->
                        path_exists d (join parent (variant_name new_name j)) = true))).
Proof.
  intros Hend. unfold rename_with_suffix. rewrite Hend. cbv zeta.
  set (parent := path_parent dest_dir).
  set (new_name := sanitize_filename (path_name dest_dir +:+ " " +:+ suffix)).
  destruct (path_exists d (join parent new_name)) eqn:Enew; cbn [negb].
  - destruct (first_free _ _ 2) as [n|] eqn:Ef; [|discriminate].
    apply first_free_some in Ef as (Hn & _ & Hfree & Hbusy).
    unfold rename_or_log.
    destruct (rename d dest_dir (join parent (variant_name new_name n)))
      as [d2|] eqn:Er.
    + intros H. injection H as <- <-. right.
      destruct (rename_moves _ _ _ _ Er) as (H1 & _ & H3).
      split; [exact Er|]. split; [exact H1|]. split; [exact H3|]. right.
      split; [reflexivity|]. exists n. split; [exact Hn|]. split; [reflexivity|].
      exact Hbusy.
    + destruct (log _ error_log d) as [e|d2] eqn:El; cbn [bind]; [discriminate|].
      intros H. injection H as <- <-. left. split; [reflexivity|].
      now apply log_only_logged in El.
  - destruct (rename d dest_dir (join parent new_name)) as [d2|] eqn:Er.
    + intros H. injection H as <- <-. right.
      destruct (rename_moves _ _ _ _ Er) as (H1 & _ & H3).
      split; [exact Er|]. split; [exact H1|]. split; [exact H3|]. now left.
    + destruct (log _ error_log d) as [e|d2] eqn:El; cbn [bind]; [discriminate|].
      intros H. injection H as <- <-. left. split; [reflexivity|].
      now apply log_only_logged in El.
Qed.

Lemma rename_with_suffix_target_witness :
  is_dir (mkFS {[ []; Scenario.out; ["out"; "Storm - Unique front and backs"] ]} ∅)
    ["out"; "Storm - Unique front and backs"] = true.
Proof.
  destruct (rename_with_suffix_target ["out"; "Storm"] unique_marker
              Scenario.errors_txt
              (mkFS {[ []; Scenario.out; ["out"; "Storm"] ]} ∅)
              (mkFS {[ []; Scenario.out; ["out"; "Storm - Unique front and backs"] ]} ∅)
              ["out"; "Storm - Unique front and backs"])
    as [[H _]|(_ & _ & H & _)].
  - by_evaluation.
  - by_evaluation.
  - discriminate H.
  - apply H. by_evaluation.
Defined.

(** ** A run without backs, and the run after it *)



Section NoBacks.

Variable a : Args.
Variable index : Index.
Variable catalog : list Path.
Variable error_log : Path.






End NoBacks.


